(** * Dispersion-relation solvers: a shallow embedding of [main.py]

    The development follows the Python module function by function:
    [grid_solver], [find_sign_change], [find_first_imag], [next_root],
    [line_trace_sp] and [next_root_mp].

    Conventions of the embedding.
    - A float64 is an exact rational ([Q]); a complex128 is a pair of
      rationals ([C]).  Rounding, infinities and NaN are not represented, so
      a division by a zero x-spacing (which numpy answers with inf or nan)
      is outside the model.  Halving and the factor [2**(-5)] are exact in
      binary floating point, so the step sizes of the halving scenario are
      the ones the program computes.
    - [np.abs z < c] on a complex [z] and a non-negative constant [c] is the
      comparison of the squares, [re z ^ 2 + im z ^ 2 < c ^ 2].
    - Ordering comparisons between complex numbers are numpy's: lexicographic
      on (real part, imaginary part).
    - The [points] array is an [ndarray]: a float64 array of rows of two
      rationals, or a complex128 array of rows [(x, y)] with [y] complex (the
      x column of a complex128 array holds reals).  [np.vstack] promotes a
      float64 array to complex128 when the appended root is complex; a write
      in place keeps the element type.  A function that writes into the
      caller's array returns the array as the write leaves it; the state of
      the array after a raise is not represented.
    - A [scalar] is a number together with its Python type, as far as the
      program depends on it: a float ([float] or [np.float64]), an
      [np.complex128], or a Python [complex].  Stored into a float64 array, a
      float is kept, an [np.complex128] keeps its real part (numpy warns),
      and a Python [complex] raises [TypeError].
    - The external solvers ([scipy.optimize.newton], [brentq], [brenth],
      [mpmath.findroot]) and the caller's equation are section variables.  A
      solver answers [Some root] or [None]; [None] is its convergence failure
      ([RuntimeError] for scipy's Newton, [ValueError] for mpmath and for a
      bracketing method).
    - A dictionary is a [gmap] from strings; a function that writes into the
      caller's dictionary returns the dictionary as the call leaves it, also
      when the call raises.
    - Exceptions are values of [exn]; a function that may raise returns a
      [result].  The text of an error message is not kept.  [while] loops
      take fuel, and running out of fuel is kept apart from both returning
      and raising.
    - Printing and timing are left out. *)

From Stdlib Require Import QArith Qabs Qround ZArith Bool Lia Lqa.
From stdpp Require Import gmap strings list.

Local Open Scope Q_scope.

(** ** Numbers *)

Module Num.

Definition Qlt_bool (a b : Q) : bool := negb (Qle_bool b a).

Record C : Type := mkC { re : Q; im : Q }.

Definition of_real (q : Q) : C := mkC q 0.
Definition Cadd (a b : C) : C := mkC (re a + re b) (im a + im b).
Definition Csub (a b : C) : C := mkC (re a - re b) (im a - im b).
Definition Cscale (k : Q) (a : C) : C := mkC (k * re a) (k * im a).

(** [|z|^2] *)
Definition Cnorm2 (z : C) : Q := re z * re z + im z * im z.

(** [np.abs(z) < c], for [0 <= c]. *)
Definition Cabs_lt (z : C) (c : Q) : bool := Qlt_bool (Cnorm2 z) (c * c).

(** Truth value of a complex array entry. *)
Definition Cnonzero (z : C) : bool :=
  negb (Qeq_bool (re z) 0 && Qeq_bool (im z) 0).

(** numpy's [<] on complex numbers. *)
Definition Clt (a b : C) : bool :=
  Qlt_bool (re a) (re b) || (Qeq_bool (re a) (re b) && Qlt_bool (im a) (im b)).

(** The literal [1e-20 * 1j]. *)
Definition tiny_imag : C := mkC 0 (1 # 100000000000000000000).

(** [np.round(q, 4)]: to four decimals, halves to the even neighbour. *)
Definition round_half_even (q : Q) : Z :=
  let f := Qfloor q in
  let r := q - inject_Z f in
  if Qlt_bool r (1 # 2) then f
  else if Qlt_bool (1 # 2) r then (f + 1)%Z
  else if Z.even f then f else (f + 1)%Z.

Definition round4 (q : Q) : Q := inject_Z (round_half_even (q * 10000)) / 10000.

End Num.
Export Num.

(** ** Exceptions and Python indexing *)

Inductive exn : Type :=
| RuntimeError
| ValueError
| IndexError
| TypeError.

Inductive result (A : Type) : Type :=
| Ok (a : A)
| Raise (e : exn).
Arguments Ok {A} a.
Arguments Raise {A} e.

#[global] Instance result_bind : MBind result := fun A B k r =>
  match r with
  | Ok a => k a
  | Raise e => Raise e
  end.

(** [except (RuntimeError, ValueError)] *)
Definition solver_error (e : exn) : bool :=
  match e with
  | RuntimeError | ValueError => true
  | _ => false
  end.

(** [l[i]] with Python's negative indices. *)
Definition py_index {A : Type} (l : list A) (i : Z) : result A :=
  let n := Z.of_nat (length l) in
  let j := if (i <? 0)%Z then (n + i)%Z else i in
  if ((0 <=? j) && (j <? n))%Z
  then match l !! Z.to_nat j with
       | Some a => Ok a
       | None => Raise IndexError
       end
  else Raise IndexError.

(** ** The continuation engine *)

(** A number with its Python type. *)
Inductive scalar : Type :=
| Real (q : Q)
| NpComplex (z : C)
| PyComplex (z : C).

Definition value (s : scalar) : C :=
  match s with
  | Real q => of_real q
  | NpComplex z | PyComplex z => z
  end.

(** One row [[x, y]] of the [points] array, read as complex numbers. *)
Definition row : Type := (Q * C)%type.

(** The [points] array with its element type. *)
Inductive ndarray : Type :=
| FloatArray (rows : list (Q * Q))
| ComplexArray (rows : list row).

Definition rows_of (points : ndarray) : list row :=
  match points with
  | FloatArray rows => map (fun p => (fst p, of_real (snd p))) rows
  | ComplexArray rows => rows
  end.

(** A number computed by numpy from entries of [points]: an [np.float64]
    from a float64 array, an [np.complex128] from a complex128 one. *)
Definition entry (points : ndarray) (z : C) : scalar :=
  match points with
  | FloatArray _ => Real (re z)
  | ComplexArray _ => NpComplex z
  end.

(** [np.vstack([points, [x_loc, root]])] *)
Definition vstack (points : ndarray) (x_loc : Q) (root : scalar) : ndarray :=
  match points, root with
  | FloatArray rows, Real r => FloatArray (rows ++ [(x_loc, r)])
  | _, _ => ComplexArray (rows_of points ++ [(x_loc, value root)])
  end.

(** [points[0,] = x_loc, root], a write into the array itself. *)
Definition set_first_row (points : ndarray) (x_loc : Q) (root : scalar)
    : result ndarray :=
  match points with
  | FloatArray [] | ComplexArray [] => Raise IndexError
  | FloatArray rows =>
      match root with
      | Real r => Ok (FloatArray (<[0%nat := (x_loc, r)]> rows))
      | NpComplex z => Ok (FloatArray (<[0%nat := (x_loc, re z)]> rows))
      | PyComplex _ => Raise TypeError
      end
  | ComplexArray rows =>
      Ok (ComplexArray (<[0%nat := (x_loc, value root)]> rows))
  end.

(** What [next_root] and [next_root_mp] return:
    [(points, np.abs(step_size), x_error, x_loc)]. *)
Definition attempt : Type := (ndarray * Q * option Q * Q)%type.

Definition jump_limit : Q := 1 # 10.

(** [points.all()]: every entry of the array is non-zero. *)
Definition all_nonzero (points : list row) : bool :=
  forallb (fun p => negb (Qeq_bool (fst p) 0) && Cnonzero (snd p)) points.

(** The predicted change of y from the last three rows, and from the last
    two. *)
Definition quadratic_increment (p3 p2 p1 : row) (step_size : Q) : C :=
  Cscale (Qabs (step_size / (fst p1 - fst p2)))
    (Cadd (Csub (snd p1) (snd p2))
          (Cadd (Csub (snd p1) (Cscale 2 (snd p2))) (snd p3))).

Definition linear_increment (p2 p1 : row) (step_size : Q) : C :=
  Cscale (Qabs (step_size / (fst p1 - fst p2))) (Csub (snd p1) (snd p2)).

(** [grad] of the [try] block; the first missing row raises [IndexError]. *)
Definition grad3 (points : list row) (step_size : Q) : result C :=
  p1 ← py_index points (-1);
  p2 ← py_index points (-2);
  p3 ← py_index points (-3);
  Ok (quadratic_increment p3 p2 p1 step_size).

(** [grad] of the two-row branch. *)
Definition grad2 (points : list row) (step_size : Q) : result C :=
  p1 ← py_index points (-1);
  p2 ← py_index points (-2);
  Ok (linear_increment p2 p1 step_size).

(** The jump test of [next_root]: both the y-bound and the x-bound. *)
Definition within_jump_limit (x_loc : Q) (root : C) (p1 : row) : bool :=
  Cabs_lt (Csub root (snd p1)) jump_limit
  && Qlt_bool (Qabs (x_loc - fst p1)) jump_limit.

Section Continuation.

(** [sp.newton(func, x0, args=arguments, maxiter=200)]; the type of the
    root is the solver's and the equation's business. *)
Variable newton : list Q -> scalar -> option scalar.

(** [mp.findroot(flip_func, x0, solver, tol[, verbose])], where
    [flip_func] is the arbitrary-precision equation closed over
    [arguments].  The fifth positional parameter of [mp.findroot] is
    [verbose]; the source passes [maxsteps] there. *)
Variable findroot : list Q -> scalar -> string -> Q -> bool -> option C.

Definition call_newton (arguments : list Q) (x0 : scalar) : result scalar :=
  match newton arguments x0 with
  | Some root => Ok root
  | None => Raise RuntimeError
  end.

(** [root_mp = mp.findroot(...)] followed by
    [root = float(mp.re(root_mp)) + 1j * float(mp.im(root_mp))], which is a
    Python [complex] whatever the root. *)
Definition call_findroot (arguments : list Q) (x0 : scalar) (solver : string)
    (tol : Q) (verbose : bool) : result scalar :=
  match findroot arguments x0 solver tol verbose with
  | Some root => Ok (PyComplex root)
  | None => Raise ValueError
  end.

(** The [try] block of [next_root]. *)
Definition next_root_try (x_loc step_size : Q) (arguments : list Q)
    (points : ndarray) : result attempt :=
  grad ← grad3 (rows_of points) step_size;
  p1 ← py_index (rows_of points) (-1);
  root ← call_newton arguments
           (NpComplex (Cadd (Cadd (snd p1) grad) tiny_imag));
  if within_jump_limit x_loc (value root) p1
  then Ok (vstack points x_loc root, Qabs step_size, None, x_loc)
  else Raise ValueError.

(** The [except IndexError] handler of [next_root]. *)
Definition next_root_short (x_loc : Q) (y_loc : scalar) (step_size : Q)
    (arguments : list Q) (points : ndarray) : result attempt :=
  if negb (all_nonzero (rows_of points)) then
    root ← call_newton arguments y_loc;
    points' ← set_first_row points x_loc root;
    Ok (points', Qabs step_size, None, x_loc)
  else if (length (rows_of points) =? 1)%nat then
    p1 ← py_index (rows_of points) (-1);
    root ← call_newton arguments (entry points (snd p1));
    Ok (vstack points x_loc root, Qabs step_size, None, x_loc)
  else if (length (rows_of points) =? 2)%nat then
    grad ← grad2 (rows_of points) step_size;
    p1 ← py_index (rows_of points) (-1);
    root ← call_newton arguments
             (NpComplex (Cadd (Cadd (snd p1) grad) tiny_imag));
    if within_jump_limit x_loc (value root) p1
    then Ok (vstack points x_loc root, Qabs step_size, None, x_loc)
    else Raise ValueError
  else Ok (points, Qabs step_size, None, x_loc).

Definition next_root (x_loc : Q) (y_loc : scalar) (step_size : Q)
    (arguments : list Q) (points : ndarray) : result attempt :=
  match next_root_try x_loc step_size arguments points with
  | Raise IndexError => next_root_short x_loc y_loc step_size arguments points
  | r => r
  end.

(** The [try] block of [next_root_mp]: the solver is called without the
    fifth argument, and only the y-jump is tested. *)
Definition next_root_mp_try (x_loc step_size : Q) (arguments : list Q)
    (points : ndarray) (solver : string) (tol : Q) : result attempt :=
  grad ← grad3 (rows_of points) step_size;
  p1 ← py_index (rows_of points) (-1);
  root ← call_findroot arguments (entry points (Cadd (snd p1) grad))
           solver tol false;
  if Cabs_lt (Csub (value root) (snd p1)) (1 # 10)
  then Ok (vstack points x_loc root, Qabs step_size, None, x_loc)
  else Raise ValueError.

(** The [except IndexError] handler of [next_root_mp]. *)
Definition next_root_mp_short (x_loc : Q) (y_loc : scalar) (step_size : Q)
    (arguments : list Q) (points : ndarray) (solver : string) (tol : Q)
    : result attempt :=
  if negb (all_nonzero (rows_of points)) then
    root ← call_findroot arguments y_loc solver tol true;
    points' ← set_first_row points x_loc root;
    Ok (points', Qabs step_size, None, x_loc)
  else if (length (rows_of points) =? 1)%nat then
    p1 ← py_index (rows_of points) (-1);
    root ← call_findroot arguments (entry points (snd p1)) solver tol true;
    Ok (vstack points x_loc root, Qabs step_size, None, x_loc)
  else if (length (rows_of points) =? 2)%nat then
    grad ← grad2 (rows_of points) step_size;
    p1 ← py_index (rows_of points) (-1);
    root ← call_findroot arguments (entry points (Cadd (snd p1) grad))
             solver tol true;
    if Cabs_lt (Csub (value root) (snd p1)) jump_limit
    then Ok (vstack points x_loc root, Qabs step_size, None, x_loc)
    else Raise ValueError
  else Ok (points, Qabs step_size, None, x_loc).

Definition next_root_mp (x_loc : Q) (y_loc : scalar) (step_size : Q)
    (arguments : list Q) (points : ndarray) (solver : string) (tol : Q)
    : result attempt :=
  match next_root_mp_try x_loc step_size arguments points solver tol with
  | Raise IndexError =>
      next_root_mp_short x_loc y_loc step_size arguments points solver tol
  | r => r
  end.

End Continuation.

(** ** The outer driver [line_trace_sp] *)

(** [[x_loc if i is None else i for i in list(args)]] *)
Definition bind_args (args : list (option Q)) (x_loc : Q) : list Q :=
  map (fun i => match i with None => x_loc | Some v => v end) args.

(** The loop variables of [line_trace_sp] that live across iterations.
    [x_error] is written on every path of the [try] statement before it is
    read, so it is part of an [attempt], not of the state. *)
Record trace_state : Type := mkTrace {
  ts_x_loc : Q;
  ts_step_size : Q;
  ts_x_error_loc : option Q;
  ts_points : ndarray
}.

Inductive direction : Type := Leftward | Rightward.

(** [points[::-1]] *)
Definition flip (points : ndarray) : ndarray :=
  match points with
  | FloatArray rows => FloatArray (rev rows)
  | ComplexArray rows => ComplexArray (rev rows)
  end.

(** [points[:, 0] = np.round(points[:, 0], 4)] *)
Definition round_x (points : ndarray) : ndarray :=
  match points with
  | FloatArray rows => FloatArray (map (fun p => (round4 (fst p), snd p)) rows)
  | ComplexArray rows =>
      ComplexArray (map (fun p => (round4 (fst p), snd p)) rows)
  end.

Section LineTrace.

Variable newton : list Q -> scalar -> option scalar.
Variable findroot : list Q -> scalar -> string -> Q -> bool -> option C.

Variable y_loc : scalar.
Variable step_init : Q.
Variables x_end_left x_end_right : Q.
Variable args : list (option Q).
Variable wordy : bool.
Variable solver : string.

(** [line_trace_sp] passes [wordy] in the position of [tol]. *)
Definition tol_of_wordy : Q := if wordy then 1 else 0.

(** [x_loc -= step_size; x_error, step_size = x_loc, step_size/2] *)
Definition shrink (st : trace_state) : attempt :=
  let x' := ts_x_loc st - ts_step_size st in
  (ts_points st, ts_step_size st / 2, Some x', x').

(** The call of [next_root_mp] with the flipped equation. *)
Definition escalate (st : trace_state) : result attempt :=
  next_root_mp findroot (ts_x_loc st) y_loc (ts_step_size st)
    (bind_args args (ts_x_loc st)) (ts_points st) solver tol_of_wordy.

(** [step_size >= step_init * 2**(-5)] *)
Definition above_threshold (st : trace_state) : bool :=
  Qle_bool (step_init * (1 # 32)) (ts_step_size st).

(** The [try] statement of the first loop.  Only [RuntimeError] and
    [ValueError] are handled; anything else leaves the function. *)
Definition left_attempt (st : trace_state) : result attempt :=
  match next_root newton (ts_x_loc st) y_loc (- ts_step_size st)
          (bind_args args (ts_x_loc st)) (ts_points st) with
  | Ok a => Ok a
  | Raise e =>
      if solver_error e then
        if above_threshold st then Ok (shrink st) else escalate st
      else Raise e
  end.

(** The [try] statement of the second loop. *)
Definition right_attempt (st : trace_state) : result attempt :=
  match next_root newton (ts_x_loc st) y_loc (ts_step_size st)
          (bind_args args (ts_x_loc st)) (ts_points st) with
  | Ok a => Ok a
  | Raise e => if solver_error e then Ok (shrink st) else Raise e
  end.

(** The [if]/[elif] chain after the [try] statement, then the move of
    [x_loc] that ends the iteration. *)
Definition settle (d : direction) (x_error_loc : option Q) (a : attempt)
    : trace_state :=
  let '(points, step_size, x_error, x_loc) := a in
  let '(x_error_loc', step_size') :=
    match x_error, x_error_loc with
    | None, None => (x_error_loc, step_size)
    | Some xe, None => (Some xe, step_size)
    | None, Some xl =>
        if Qle_bool (10 * step_size) (Qabs x_loc - Qabs xl)
        then (x_error_loc, step_init)
        else (x_error_loc, step_size)
    | Some _, Some _ => (x_error_loc, step_size)
    end in
  mkTrace (match d with
           | Leftward => x_loc - step_size'
           | Rightward => x_loc + step_size'
           end)
          step_size' x_error_loc' points.

Definition attempt_in (d : direction) (st : trace_state) : result attempt :=
  match d with
  | Leftward => left_attempt st
  | Rightward => right_attempt st
  end.

(** One iteration of either loop. *)
Definition loop_body (d : direction) (st : trace_state)
    : result trace_state :=
  a ← attempt_in d st; Ok (settle d (ts_x_error_loc st) a).

Definition left_body : trace_state -> result trace_state :=
  loop_body Leftward.

Definition right_body : trace_state -> result trace_state :=
  loop_body Rightward.

(** [while np.real(x_loc) >= x_end_left]; [None] when the fuel runs out. *)
Fixpoint left_loop (fuel : nat) (st : trace_state)
    : option (result trace_state) :=
  if Qle_bool x_end_left (ts_x_loc st) then
    match fuel with
    | O => None
    | S fuel' =>
        match left_body st with
        | Ok st' => left_loop fuel' st'
        | Raise e => Some (Raise e)
        end
    end
  else Some (Ok st).

(** [while np.real(x_loc) <= x_end_right] *)
Fixpoint right_loop (fuel : nat) (st : trace_state)
    : option (result trace_state) :=
  if Qle_bool (ts_x_loc st) x_end_right then
    match fuel with
    | O => None
    | S fuel' =>
        match right_body st with
        | Ok st' => right_loop fuel' st'
        | Raise e => Some (Raise e)
        end
    end
  else Some (Ok st).

(** [np.zeros((1, 2))], a float64 array. *)
Definition zero_buffer : ndarray := FloatArray [(0, 0)].

(** [points = points[::-1]; x_loc = points[-1, 0] + step_size] *)
Definition turn_around (st : trace_state) : result trace_state :=
  let points := flip (ts_points st) in
  p ← py_index (rows_of points) (-1);
  Ok (mkTrace (fst p + ts_step_size st) (ts_step_size st)
        (ts_x_error_loc st) points).

Definition line_trace_sp (fuel : nat) (x_loc : Q)
    : option (result ndarray) :=
  match left_loop fuel (mkTrace x_loc step_init None zero_buffer) with
  | None => None
  | Some (Raise e) => Some (Raise e)
  | Some (Ok st1) =>
      match turn_around st1 with
      | Raise e => Some (Raise e)
      | Ok st2 =>
          match right_loop fuel st2 with
          | None => None
          | Some (Raise e) => Some (Raise e)
          | Some (Ok st3) => Some (Ok (round_x (ts_points st3)))
          end
      end
  end.

(** [n] iterations of a loop body, the loop test left aside. *)
Fixpoint iterate (body : trace_state -> result trace_state) (n : nat)
    (st : trace_state) : result trace_state :=
  match n with
  | O => Ok st
  | S n' => st' ← body st; iterate body n' st'
  end.

(** The state in which the leftward loop enters its iteration number [k]
    (counted from 0), when the loop gets that far. *)
Fixpoint left_state (k : nat) (st : trace_state) : option trace_state :=
  match k with
  | O => Some st
  | S k' =>
      if Qle_bool x_end_left (ts_x_loc st) then
        match left_body st with
        | Ok st' => left_state k' st'
        | Raise _ => None
        end
      else None
  end.

End LineTrace.

(** ** The grid scanner *)

(** The [axes] dictionary [{'x_axis': ..., 'y_axis': ...}]. *)
Record axes_dict : Type := mkAxes { x_axis : string; y_axis : string }.

(** [np.isclose(a, b, atol=1e-6)] with the default [rtol = 1e-5]:
    [|a - b| <= atol + rtol * |b|], decided on squares. *)
Definition np_isclose (a b : C) : bool :=
  let atol := 1 # 1000000 in
  let rtol := 1 # 100000 in
  let t := Cnorm2 (Csub a b) - atol * atol - rtol * rtol * Cnorm2 b in
  Qle_bool t 0 || Qle_bool (t * t) (4 * atol * atol * rtol * rtol * Cnorm2 b).

(** [np.isclose(root, points, atol=1e-6).any()]: the root is compared with
    every entry of the list of [[x_loc, root]] pairs. *)
Definition close_to_any (root : C) (points : list row) : bool :=
  existsb (fun p => np_isclose root (of_real (fst p)) || np_isclose root (snd p))
          points.

(** [root > y_range[0] and root < y_range[-1]].  Only read inside a loop
    over [y_range], where the list is not empty. *)
Definition within (y_range : list Q) (root : C) : bool :=
  Clt (of_real (hd 0 y_range)) root && Clt root (of_real (List.last y_range 0)).

(** The whole acceptance test: inside the range, and close to no entry
    stored so far. *)
Definition accepted (y_range : list Q) (points : list row) (root : C) : bool :=
  within y_range root && negb (close_to_any root points).

(** [if np.imag(root) != 0 and np.imag(root) < 1e-5: root = np.real(root)] *)
Definition snaps (root : C) : bool :=
  negb (Qeq_bool (im root) 0) && Qlt_bool (im root) (1 # 100000).

Definition snap (root : C) : C :=
  if snaps root then of_real (re root) else root.

(** [np.linspace(a, b, n)] *)
Definition linspace (a b : Q) (n : nat) : list Q :=
  let step := (b - a) / inject_Z (Z.of_nat (n - 1)) in
  map (fun k => a + inject_Z (Z.of_nat k) * step) (seq 0 n).

(** [(grid_prod < 0) * (np.abs(func_grid[:-1]) < 1)] at one index. *)
Definition sign_change (f0 f1 : C) : bool :=
  Qlt_bool (re f0 * re f1) 0 && Cabs_lt f0 1.

(** [np.where(root_locs)[0]], counting from [i]. *)
Fixpoint root_locs (i : nat) (func_grid : list C) : list nat :=
  match func_grid with
  | f0 :: (f1 :: _) as rest =>
      (if sign_change f0 f1 then [i] else []) ++ root_locs (S i) rest
  | _ => []
  end.

(** The number of samples of [y_range_local]. *)
Definition local_grid_size : nat := Z.to_nat 10000.

Section GridSolver.

(** [func(y, **kwargs)] at a real [y]. *)
Variable func : gmap string Q -> Q -> C.
(** [sp.newton(partial(func, **kwargs), y_loc, tol=1e-20)] *)
Variable newton : gmap string Q -> Q -> option C.
(** [sp.brentq] and [sp.brenth] on [partial(func, **kwargs)] between two
    end points; [None] is their [RuntimeError] or [ValueError]. *)
Variable brentq : gmap string Q -> Q -> Q -> option Q.
Variable brenth : gmap string Q -> Q -> Q -> option Q.

Variable y_range : list Q.
Variable axes : axes_dict.

(** The acceptance test and the [append] shared by the three branches. *)
Definition keep (x_loc : Q) (root : C) (points : list row) : list row :=
  if accepted y_range points root
  then points ++ [(x_loc, snap root)]
  else points.

(** [for y_loc in y_range] of the Newton branch. *)
Fixpoint newton_column (kwargs : gmap string Q) (x_loc : Q) (ys : list Q)
    (points : list row) : list row :=
  match ys with
  | [] => points
  | y_loc :: ys' =>
      newton_column kwargs x_loc ys'
        (match newton kwargs y_loc with
         | Some root => keep x_loc root points
         | None => points
         end)
  end.

(** [for x_loc in x_range] of the Newton branch; [args] is the caller's
    dictionary, written in place. *)
Fixpoint newton_sweep (xs : list Q) (args : gmap string Q)
    (points : list row) : gmap string Q * list row :=
  match xs with
  | [] => (args, points)
  | x_loc :: xs' =>
      let args' := <[x_axis axes := x_loc]> args in
      newton_sweep xs' args' (newton_column args' x_loc y_range points)
  end.

(** [for i in np.where(root_locs)[0]] of a bracketing branch. *)
Fixpoint brent_roots (brent : gmap string Q -> Q -> Q -> option Q)
    (kwargs : gmap string Q) (x_loc : Q) (y_range_local : list Q)
    (locs : list nat) (points : list row) : result (list row) :=
  match locs with
  | [] => Ok points
  | i :: locs' =>
      brent_start ← py_index y_range_local (Z.of_nat i - 2);
      brent_end ← py_index y_range_local (Z.of_nat i + 2);
      brent_roots brent kwargs x_loc y_range_local locs'
        (match brent kwargs brent_start brent_end with
         | Some root => keep x_loc (of_real root) points
         | None => points
         end)
  end.

(** [for y_loc in y_range] of a bracketing branch. *)
Fixpoint brent_column (brent : gmap string Q -> Q -> Q -> option Q)
    (kwargs : gmap string Q) (x_loc step_size : Q) (ys : list Q)
    (points : list row) : result (list row) :=
  match ys with
  | [] => Ok points
  | y_loc :: ys' =>
      let y_range_local :=
        linspace (y_loc - step_size) (y_loc + step_size) local_grid_size in
      let func_grid := map (func kwargs) y_range_local in
      points' ← brent_roots brent kwargs x_loc y_range_local
                  (root_locs 0 func_grid) points;
      brent_column brent kwargs x_loc step_size ys' points'
  end.

(** [for x_loc in x_range] of a bracketing branch.  An exception leaves the
    dictionary as the last assignment made it. *)
Fixpoint brent_sweep (brent : gmap string Q -> Q -> Q -> option Q)
    (step_size : Q) (xs : list Q) (args : gmap string Q)
    (points : list row) : gmap string Q * result (list row) :=
  match xs with
  | [] => (args, Ok points)
  | x_loc :: xs' =>
      let args' := <[x_axis axes := x_loc]> args in
      match brent_column brent args' x_loc step_size y_range points with
      | Ok points' => brent_sweep brent step_size xs' args' points'
      | Raise e => (args', Raise e)
      end
  end.

(** [np.abs(y_range[0]-y_range[-1])/(2*len(y_range))] *)
Definition half_step : result Q :=
  y0 ← py_index y_range 0;
  y1 ← py_index y_range (-1);
  Ok (Qabs (y0 - y1) / (2 * inject_Z (Z.of_nat (length y_range)))).

(** [np.array(points)] followed by the report, which reads
    [points[:, 1]]: an empty result is one-dimensional and raises. *)
Definition report (points : list row) : result (list row) :=
  match points with
  | [] => Raise IndexError
  | _ => Ok points
  end.

(** The caller's dictionary after the call, and what the call returns. *)
Definition grid_solver (x_range : list Q) (args : gmap string Q)
    (method : string) : gmap string Q * result (list row) :=
  if String.eqb method "sp.newton" then
    let '(args', points) := newton_sweep x_range args [] in
    (args', report points)
  else if String.eqb method "sp.brentq" then
    match half_step with
    | Raise e => (args, Raise e)
    | Ok step_size =>
        let '(args', r) := brent_sweep brentq step_size x_range args [] in
        (args', points ← r; report points)
    end
  else if String.eqb method "sp.brenth" then
    match half_step with
    | Raise e => (args, Raise e)
    | Ok step_size =>
        let '(args', r) := brent_sweep brenth step_size x_range args [] in
        (args', points ← r; report points)
    end
  else (args, report []).

End GridSolver.

(** ** [find_sign_change] *)

(** A keyword argument is a number (an entry of [args]) or a 2-D grid. *)
Inductive kwval : Type :=
| Scalar (q : Q)
| Grid (g : list (list Q)).

(** [np.meshgrid(x_range, y_range)] *)
Definition meshgrid (x_range y_range : list Q)
    : list (list Q) * list (list Q) :=
  (map (fun _ => x_range) y_range,
   map (fun y => map (fun _ => y) x_range) y_range).

(** A call that unpacks two dictionaries as keywords, [d1] then [d2]: a key
    given twice is a [TypeError]. *)
Definition call_kwargs (d1 d2 : gmap string kwval)
    : result (gmap string kwval) :=
  if decide (dom d1 ##@{gset string} dom d2) then Ok (d1 ∪ d2)
  else Raise TypeError.

(** Calling [partial(f, **stored)] with keywords [kw]: the call's keywords
    extend and override the stored ones. *)
Definition partial_call {A : Type} (f : gmap string kwval -> A)
    (stored kw : gmap string kwval) : A :=
  f (kw ∪ stored).

(** One row of the mask applied to [x_grid[1:]] and [y_grid[1:]]:
    [(grid_prod < 0) * (func_grid[:-1, :] < 10)]. *)
Fixpoint flagged_row (down up : list C) (xs ys : list Q) : list (Q * Q) :=
  match down, up, xs, ys with
  | d :: down', u :: up', x :: xs', y :: ys' =>
      (if Qlt_bool (re d * re u) 0 && Clt d (of_real 10) then [(x, y)] else [])
        ++ flagged_row down' up' xs' ys'
  | _, _, _, _ => []
  end.

Fixpoint flagged (func_grid : list (list C)) (x_grid y_grid : list (list Q))
    : list (Q * Q) :=
  match func_grid, x_grid, y_grid with
  | down :: (up :: _) as rest, _ :: (xs :: _) as x_rest, _ :: (ys :: _) as y_rest =>
      flagged_row down up xs ys ++ flagged rest x_rest y_rest
  | _, _, _ => []
  end.

(** The boolean mask indexes [x_grid[1:]], so the two shapes must agree. *)
Definition same_shape {A B : Type} (a : list (list A)) (b : list (list B))
    : bool :=
  (length a =? length b)%nat
  && forallb (fun p => (length (fst p) =? length (snd p))%nat) (combine a b).

Section FindSignChange.

(** The caller's equation on keyword arguments; it answers a 2-D array or
    raises. *)
Variable func : gmap string kwval -> result (list (list C)).

Definition find_sign_change (x_range y_range : list Q) (axes : axes_dict)
    (args : gmap string Q) : result (list (Q * Q)) :=
  let '(x_grid, y_grid) := meshgrid x_range y_range in
  let stored : gmap string kwval := Scalar <$> args in
  let grid_axes : gmap string kwval :=
    <[x_axis axes := Grid x_grid]> (<[y_axis axes := Grid y_grid]> ∅) in
  kw ← call_kwargs grid_axes stored;
  func_grid ← partial_call func stored kw;
  if same_shape func_grid x_grid
  then Ok (flagged func_grid x_grid y_grid)
  else Raise IndexError.

End FindSignChange.

(** ** [find_first_imag] *)

Section FindFirstImag.

(** [sp.newton(func, y_loc, args=tuple(arguments), tol=1e-20)] *)
Variable newton : list Q -> Q -> option C.

Variable y_range : list Q.

(** [(root > y_range[0] and root < y_range[-1]) and np.imag(root) > 1e-5] *)
Definition first_imag_test (root : C) : bool :=
  within y_range root && Qlt_bool (1 # 100000) (im root).

(** [for y_loc in y_range]; [Some] is the [return] statement. *)
Fixpoint first_imag_column (arguments : list Q) (x_loc : Q) (ys : list Q)
    : option (Q * C) :=
  match ys with
  | [] => None
  | y_loc :: ys' =>
      match newton arguments y_loc with
      | Some root =>
          if first_imag_test root then Some (x_loc, root)
          else first_imag_column arguments x_loc ys'
      | None => first_imag_column arguments x_loc ys'
      end
  end.

(** [for x_loc in x_range]; [None] is Python's [None]. *)
Fixpoint find_first_imag_from (args : list (option Q)) (xs : list Q)
    : option (Q * C) :=
  match xs with
  | [] => None
  | x_loc :: xs' =>
      match first_imag_column (bind_args args x_loc) x_loc y_range with
      | Some found => Some found
      | None => find_first_imag_from args xs'
      end
  end.

Definition find_first_imag (x_range : list Q) (args : list (option Q))
    : option (Q * C) :=
  find_first_imag_from args x_range.

End FindFirstImag.

(** ** Solvers for the worked examples *)

(** A fixed-precision solver that never converges, and one that converges
    at once to the guess it was started from. *)
Definition never_converges : list Q -> scalar -> option scalar :=
  fun _ _ => None.
Definition returns_guess : list Q -> scalar -> option scalar :=
  fun _ x0 => Some x0.

(** The same two behaviours for the arbitrary-precision solver. *)
Definition mp_never_converges
    : list Q -> scalar -> string -> Q -> bool -> option C :=
  fun _ _ _ _ _ => None.
Definition mp_returns_guess
    : list Q -> scalar -> string -> Q -> bool -> option C :=
  fun _ x0 _ _ _ => Some (value x0).

(** Solvers that converge to a given root from any guess. *)
Definition converges_to (root : scalar) : list Q -> scalar -> option scalar :=
  fun _ _ => Some root.
Definition mp_converges_to (root : C)
    : list Q -> scalar -> string -> Q -> bool -> option C :=
  fun _ _ _ _ _ => Some root.

(** ** Vocabulary for the statements about the grid scanner *)

(** An equation with one extra parameter [k]: the grid is
    [k - y] over the whole mesh, and a call without [k], or with [k] bound to
    a grid, is the [TypeError] of a missing or ill-typed argument. *)
Definition offset_equation (kw : gmap string kwval)
    : result (list (list C)) :=
  match kw !! "k"%string, kw !! "y"%string with
  | Some (Scalar k), Some (Grid y_grid) =>
      Ok (map (map (fun y => of_real (k - y))) y_grid)
  | _, _ => Raise TypeError
  end.

(** A Newton solver on keyword arguments that converges, from the guess 0
    only, to [1/2 - i]. *)
Definition converges_below_axis : gmap string Q -> Q -> option C :=
  fun _ y_loc => if Qeq_bool y_loc 0 then Some (mkC (1 # 2) (-1)) else None.

(** The caller's dictionary once the loop over [xs] has run to its end: the
    x-axis key holds the last element of [xs]. *)
Definition swept (axes : axes_dict) (xs : list Q) (args : gmap string Q)
    : gmap string Q :=
  match last xs with
  | Some x => <[x_axis axes := x]> args
  | None => args
  end.

(** * Properties *)

(** ** Comparisons *)

Lemma Qlt_bool_iff a b : Qlt_bool a b = true <-> a < b.
Proof.
  unfold Qlt_bool. rewrite negb_true_iff. split.
  - intros H. apply Qnot_le_lt. intros Hle.
    apply Qle_bool_iff in Hle. congruence.
  - intros H. destruct (Qle_bool b a) eqn:E; [|reflexivity].
    apply Qle_bool_iff in E. lra.
Qed.

Lemma Clt_re a b : Clt a b = true -> re a <= re b.
Proof.
  unfold Clt. rewrite orb_true_iff, andb_true_iff.
  intros [H|[H _]].
  - apply Qlt_bool_iff in H. lra.
  - apply Qeq_bool_iff in H. lra.
Qed.

(** ** Python indexing *)

Lemma py_index_middle {A : Type} (l1 l2 : list A) (a : A) :
  py_index (l1 ++ a :: l2) (- Z.of_nat (S (length l2))) = Ok a.
Proof.
  unfold py_index.
  rewrite length_app, length_cons.
  assert (Hneg : (- Z.of_nat (S (length l2)) <? 0)%Z = true) by (apply Z.ltb_lt; lia).
  rewrite Hneg.
  set (j := (Z.of_nat (length l1 + S (length l2)) + - Z.of_nat (S (length l2)))%Z).
  assert (Hj : j = Z.of_nat (length l1)) by (subst j; lia).
  rewrite Hj.
  assert (Hin : ((0 <=? Z.of_nat (length l1)) &&
                 (Z.of_nat (length l1) <? Z.of_nat (length l1 + S (length l2))))%Z = true).
  { apply andb_true_iff; split; [apply Z.leb_le | apply Z.ltb_lt]; lia. }
  rewrite Hin, Nat2Z.id, list_lookup_middle by reflexivity.
  reflexivity.
Qed.

Lemma py_index_last {A : Type} (l : list A) (a : A) :
  py_index (l ++ [a]) (-1) = Ok a.
Proof. exact (py_index_middle l [] a). Qed.

Lemma py_index_tail3 {A : Type} (l : list A) (c b a : A) :
  py_index (l ++ [c; b; a]) (-1) = Ok a
  /\ py_index (l ++ [c; b; a]) (-2) = Ok b
  /\ py_index (l ++ [c; b; a]) (-3) = Ok c.
Proof.
  split; [|split].
  - pose proof (py_index_middle (l ++ [c; b]) [] a) as H.
    rewrite <- app_assoc in H. exact H.
  - pose proof (py_index_middle (l ++ [c]) [a] b) as H.
    rewrite <- app_assoc in H. exact H.
  - exact (py_index_middle l [b; a] c).
Qed.

Lemma py_index_one {A : Type} (a : A) : py_index [a] (-1) = Ok a.
Proof. reflexivity. Qed.

Lemma py_index_two {A : Type} (b a : A) :
  py_index [b; a] (-1) = Ok a /\ py_index [b; a] (-2) = Ok b.
Proof. split; reflexivity. Qed.

Lemma grad2_pair p2 p1 step_size :
  grad2 [p2; p1] step_size = Ok (linear_increment p2 p1 step_size).
Proof. reflexivity. Qed.

(** Reading the last rows of a trace of one or two rows. *)
Ltac short_rows :=
  cbn;
  rewrite ?grad2_pair, ?py_index_one, ?(proj1 (py_index_two _ _));
  cbn.

(** A list of three or more rows ends in three rows. *)
Lemma three_rows_tail {A : Type} (l : list A) :
  (3 <= length l)%nat -> exists rest c b a, l = rest ++ [c; b; a].
Proof.
  intros Hlen.
  destruct (rev l) as [|a [|b [|c r]]] eqn:Hrev.
  - apply (f_equal (@length A)) in Hrev. rewrite length_rev in Hrev. cbn in Hrev. lia.
  - apply (f_equal (@length A)) in Hrev. rewrite length_rev in Hrev. cbn in Hrev. lia.
  - apply (f_equal (@length A)) in Hrev. rewrite length_rev in Hrev. cbn in Hrev. lia.
  - exists (rev r), c, b, a.
    rewrite <- (rev_involutive l), Hrev. cbn.
    repeat rewrite <- app_assoc. reflexivity.
Qed.

(** ** [next_root] and [next_root_mp] *)

Section ContinuationFacts.

Variable newton : list Q -> scalar -> option scalar.
Variable findroot : list Q -> scalar -> string -> Q -> bool -> option C.

(** [np.vstack] keeps the rows it is given and adds one. *)
Lemma rows_of_vstack points x_loc root :
  rows_of (vstack points x_loc root)
  = rows_of points ++ [(x_loc, value root)].
Proof.
  destruct points, root; cbn; rewrite ?map_app; reflexivity.
Qed.

Lemma length_vstack points x_loc root :
  length (rows_of (vstack points x_loc root)) = S (length (rows_of points)).
Proof. rewrite rows_of_vstack, length_app. cbn. lia. Qed.

(** The write in place: what row 0 holds afterwards, by element type. *)
Lemma rows_of_set_first_row points x_loc root points' :
  set_first_row points x_loc root = Ok points' ->
  rows_of points'
  = <[0%nat := (x_loc, match points with
                       | FloatArray _ => of_real (re (value root))
                       | ComplexArray _ => value root
                       end)]> (rows_of points).
Proof.
  destruct points as [[|r rows]|[|r rows]]; cbn; try discriminate.
  - destruct root; try discriminate; intros [= <-]; reflexivity.
  - intros [= <-]. reflexivity.
Qed.

Lemma length_set_first_row points x_loc root points' :
  set_first_row points x_loc root = Ok points' ->
  length (rows_of points') = length (rows_of points).
Proof.
  intros H. rewrite (rows_of_set_first_row _ _ _ _ H).
  apply length_insert.
Qed.

(** It fails on a float64 array given a Python complex, and on an array
    without rows; nowhere else. *)
Lemma set_first_row_raises points x_loc root e :
  set_first_row points x_loc root = Raise e ->
  (e = IndexError /\ rows_of points = [])
  \/ (e = TypeError /\ exists rows z,
        points = FloatArray rows /\ root = PyComplex z).
Proof.
  destruct points as [[|r rows]|[|r rows]]; cbn; try discriminate.
  - intros [= <-]. left. split; reflexivity.
  - destruct root; try discriminate. intros [= <-].
    right. split; [reflexivity|]. eauto.
  - intros [= <-]. left. split; reflexivity.
Qed.

Lemma all_nonzero_nil_rows points :
  all_nonzero (rows_of points) = false -> rows_of points <> [].
Proof. intros H Hnil. rewrite Hnil in H. discriminate. Qed.

Lemma grad3_tail rest p3 p2 p1 step_size :
  grad3 (rest ++ [p3; p2; p1]) step_size
  = Ok (quadratic_increment p3 p2 p1 step_size).
Proof.
  unfold grad3.
  destruct (py_index_tail3 rest p3 p2 p1) as (H1 & H2 & H3).
  rewrite H1. cbn. rewrite H2. cbn. rewrite H3. reflexivity.
Qed.

Lemma grad3_short (points : list row) step_size :
  (length points < 3)%nat -> grad3 points step_size = Raise IndexError.
Proof.
  destruct points as [|a [|b [|c rest]]]; cbn; try reflexivity. lia.
Qed.

(** With three rows or more [next_root] never reaches its handler: the
    corrector starts from the quadratic prediction, and the new row is
    appended exactly when both jump bounds hold. *)
Lemma next_root_steady rest p3 p2 p1 x_loc y_loc step_size arguments points :
  rows_of points = rest ++ [p3; p2; p1] ->
  next_root newton x_loc y_loc step_size arguments points
  = match newton arguments
            (NpComplex
               (Cadd (Cadd (snd p1) (quadratic_increment p3 p2 p1 step_size))
                     tiny_imag)) with
    | None => Raise RuntimeError
    | Some root =>
        if within_jump_limit x_loc (value root) p1
        then Ok (vstack points x_loc root, Qabs step_size, None, x_loc)
        else Raise ValueError
    end.
Proof.
  intros Hrows. unfold next_root, next_root_try. rewrite Hrows.
  rewrite grad3_tail. cbn.
  destruct (py_index_tail3 rest p3 p2 p1) as (H1 & _ & _).
  rewrite H1. cbn. unfold call_newton.
  destruct (newton arguments _) as [root|]; cbn; [|reflexivity].
  destruct (within_jump_limit _ _ _); reflexivity.
Qed.

(** With fewer than three rows [next_root] is its handler. *)
Lemma next_root_handler points x_loc y_loc step_size arguments :
  (length (rows_of points) < 3)%nat ->
  next_root newton x_loc y_loc step_size arguments points
  = next_root_short newton x_loc y_loc step_size arguments points.
Proof.
  intros Hlen. unfold next_root, next_root_try.
  rewrite grad3_short by exact Hlen. reflexivity.
Qed.

(** One row without a zero entry: the corrector starts from the last y,
    and the new row is appended without a jump test. *)
Lemma next_root_one_row p1 x_loc y_loc step_size arguments points :
  rows_of points = [p1] ->
  all_nonzero [p1] = true ->
  next_root newton x_loc y_loc step_size arguments points
  = match newton arguments (entry points (snd p1)) with
    | None => Raise RuntimeError
    | Some root => Ok (vstack points x_loc root, Qabs step_size, None, x_loc)
    end.
Proof.
  intros Hrows Hnz. rewrite next_root_handler by (rewrite Hrows; cbn; lia).
  unfold next_root_short. rewrite Hrows, Hnz. short_rows. unfold call_newton.
  destruct (newton arguments _) as [root|]; reflexivity.
Qed.

(** Two rows without a zero entry: the linear prediction. *)
Lemma next_root_two_rows p2 p1 x_loc y_loc step_size arguments points :
  rows_of points = [p2; p1] ->
  all_nonzero [p2; p1] = true ->
  next_root newton x_loc y_loc step_size arguments points
  = match newton arguments
            (NpComplex
               (Cadd (Cadd (snd p1) (linear_increment p2 p1 step_size))
                     tiny_imag)) with
    | None => Raise RuntimeError
    | Some root =>
        if within_jump_limit x_loc (value root) p1
        then Ok (vstack points x_loc root, Qabs step_size, None, x_loc)
        else Raise ValueError
    end.
Proof.
  intros Hrows Hnz. rewrite next_root_handler by (rewrite Hrows; cbn; lia).
  unfold next_root_short. rewrite Hrows, Hnz. short_rows. unfold call_newton.
  destruct (newton arguments _) as [root|]; cbn; [|reflexivity].
  destruct (within_jump_limit _ _ _); reflexivity.
Qed.

(** One or two rows with a zero entry are taken for the empty buffer: the
    first row is overwritten, in place, by a fresh solve from [y_loc]. *)
Lemma next_root_reseeds points x_loc y_loc step_size arguments :
  (length (rows_of points) < 3)%nat ->
  all_nonzero (rows_of points) = false ->
  next_root newton x_loc y_loc step_size arguments points
  = match newton arguments y_loc with
    | None => Raise RuntimeError
    | Some root =>
        match set_first_row points x_loc root with
        | Ok points' => Ok (points', Qabs step_size, None, x_loc)
        | Raise e => Raise e
        end
    end.
Proof.
  intros Hlen Hz. rewrite next_root_handler by exact Hlen.
  unfold next_root_short. rewrite Hz. cbn. unfold call_newton.
  destruct (newton arguments y_loc) as [root|]; cbn; [|reflexivity].
  destruct (set_first_row points x_loc root); reflexivity.
Qed.

(** The three regimes of a trace of fewer than three rows. *)
Lemma short_trace_cases points :
  (length (rows_of points) < 3)%nat ->
  rows_of points = []
  \/ all_nonzero (rows_of points) = false
  \/ (exists p1, rows_of points = [p1] /\ all_nonzero [p1] = true)
  \/ (exists p2 p1, rows_of points = [p2; p1] /\ all_nonzero [p2; p1] = true).
Proof.
  intros Hlen.
  destruct (rows_of points) as [|p2 [|p1 [|? ?]]] eqn:Hrows;
    cbn in Hlen; try lia.
  - left. reflexivity.
  - destruct (all_nonzero [p2]) eqn:Hnz; [|right; left; reflexivity].
    right. right. left. eauto.
  - destruct (all_nonzero [p2; p1]) eqn:Hnz; [|right; left; reflexivity].
    right. right. right. eauto.
Qed.

(** Without rows both functions return the array as it came. *)
Lemma next_root_no_rows points x_loc y_loc step_size arguments :
  rows_of points = [] ->
  next_root newton x_loc y_loc step_size arguments points
  = Ok (points, Qabs step_size, None, x_loc).
Proof.
  intros Hrows. rewrite next_root_handler by (rewrite Hrows; cbn; lia).
  unfold next_root_short. rewrite Hrows. reflexivity.
Qed.

(** Whatever [next_root] appends to a trace of two rows or more passed
    both bounds of the jump test. *)
Lemma next_root_append_within_limits points x_loc y_loc step_size arguments
    points' s xe x :
  (2 <= length (rows_of points))%nat ->
  next_root newton x_loc y_loc step_size arguments points
    = Ok (points', s, xe, x) ->
  length (rows_of points') = S (length (rows_of points)) ->
  exists root p1,
    points' = vstack points x_loc root
    /\ py_index (rows_of points) (-1) = Ok p1
    /\ Cnorm2 (Csub (value root) (snd p1)) < jump_limit * jump_limit
    /\ Qabs (x_loc - fst p1) < jump_limit.
Proof.
  intros Hlen Hrun Hgrow.
  assert (Hlim : forall root p1, within_jump_limit x_loc root p1 = true ->
            Cnorm2 (Csub root (snd p1)) < jump_limit * jump_limit
            /\ Qabs (x_loc - fst p1) < jump_limit).
  { intros root p1 H. unfold within_jump_limit, Cabs_lt, Qlt_bool in H.
    apply andb_true_iff in H as [Hy Hx].
    apply negb_true_iff in Hy, Hx.
    split; apply Qnot_le_lt; intros Hle;
      apply Qle_bool_iff in Hle; congruence. }
  destruct (le_lt_dec 3 (length (rows_of points))) as [H3|H3].
  - destruct (three_rows_tail _ H3) as (rest & p3 & p2 & p1 & Hrows).
    rewrite (next_root_steady _ _ _ _ _ _ _ _ _ Hrows) in Hrun.
    destruct (newton arguments _) as [root|]; [|discriminate].
    destruct (within_jump_limit x_loc (value root) p1) eqn:Hok; [|discriminate].
    injection Hrun as <- _ _ _.
    exists root, p1. split; [reflexivity|].
    split; [rewrite Hrows; apply py_index_tail3|]. apply Hlim, Hok.
  - destruct (short_trace_cases points H3)
      as [Hnil | [Hz | [(p1 & Hrows & Hnz) | (p2 & p1 & Hrows & Hnz)]]].
    + rewrite Hnil in Hlen. cbn in Hlen. lia.
    + rewrite next_root_reseeds in Hrun by assumption.
      destruct (newton arguments y_loc) as [root|]; [|discriminate].
      destruct (set_first_row points x_loc root) as [a|] eqn:Hset;
        [|discriminate].
      injection Hrun as <- _ _ _.
      rewrite (length_set_first_row _ _ _ _ Hset) in Hgrow. lia.
    + rewrite Hrows in Hlen. cbn in Hlen. lia.
    + rewrite (next_root_two_rows _ _ _ _ _ _ _ Hrows Hnz) in Hrun.
      destruct (newton arguments _) as [root|]; [|discriminate].
      destruct (within_jump_limit x_loc (value root) p1) eqn:Hok;
        [|discriminate].
      injection Hrun as <- _ _ _.
      exists root, p1. split; [reflexivity|].
      split; [rewrite Hrows; reflexivity|]. apply Hlim, Hok.
Qed.

(** [next_root_mp] with three rows or more: the same prediction without
    the imaginary nudge, and a jump test on y alone. *)
Lemma next_root_mp_steady rest p3 p2 p1 x_loc y_loc step_size arguments
    solver tol points :
  rows_of points = rest ++ [p3; p2; p1] ->
  next_root_mp findroot x_loc y_loc step_size arguments points solver tol
  = match findroot arguments
            (entry points
               (Cadd (snd p1) (quadratic_increment p3 p2 p1 step_size)))
            solver tol false with
    | None => Raise ValueError
    | Some root =>
        if Cabs_lt (Csub root (snd p1)) jump_limit
        then Ok (vstack points x_loc (PyComplex root), Qabs step_size, None,
                 x_loc)
        else Raise ValueError
    end.
Proof.
  intros Hrows. unfold next_root_mp, next_root_mp_try. rewrite Hrows.
  rewrite grad3_tail. cbn.
  destruct (py_index_tail3 rest p3 p2 p1) as (H1 & _ & _).
  rewrite H1. cbn. unfold call_findroot.
  destruct (findroot arguments _ _ _ _) as [root|]; cbn; [|reflexivity].
  change (1 # 10) with jump_limit.
  destruct (Cabs_lt _ _); reflexivity.
Qed.

Lemma next_root_mp_handler points x_loc y_loc step_size arguments solver tol :
  (length (rows_of points) < 3)%nat ->
  next_root_mp findroot x_loc y_loc step_size arguments points solver tol
  = next_root_mp_short findroot x_loc y_loc step_size arguments points
      solver tol.
Proof.
  intros Hlen. unfold next_root_mp, next_root_mp_try.
  rewrite grad3_short by exact Hlen. reflexivity.
Qed.

Lemma next_root_mp_no_rows points x_loc y_loc step_size arguments solver tol :
  rows_of points = [] ->
  next_root_mp findroot x_loc y_loc step_size arguments points solver tol
  = Ok (points, Qabs step_size, None, x_loc).
Proof.
  intros Hrows. rewrite next_root_mp_handler by (rewrite Hrows; cbn; lia).
  unfold next_root_mp_short. rewrite Hrows. reflexivity.
Qed.

Lemma next_root_mp_one_row p1 x_loc y_loc step_size arguments solver tol
    points :
  rows_of points = [p1] ->
  all_nonzero [p1] = true ->
  next_root_mp findroot x_loc y_loc step_size arguments points solver tol
  = match findroot arguments (entry points (snd p1)) solver tol true with
    | None => Raise ValueError
    | Some root =>
        Ok (vstack points x_loc (PyComplex root), Qabs step_size, None, x_loc)
    end.
Proof.
  intros Hrows Hnz.
  rewrite next_root_mp_handler by (rewrite Hrows; cbn; lia).
  unfold next_root_mp_short. rewrite Hrows, Hnz. short_rows.
  unfold call_findroot.
  destruct (findroot arguments _ _ _ _) as [root|]; reflexivity.
Qed.

Lemma next_root_mp_two_rows p2 p1 x_loc y_loc step_size arguments solver tol
    points :
  rows_of points = [p2; p1] ->
  all_nonzero [p2; p1] = true ->
  next_root_mp findroot x_loc y_loc step_size arguments points solver tol
  = match findroot arguments
            (entry points (Cadd (snd p1) (linear_increment p2 p1 step_size)))
            solver tol true with
    | None => Raise ValueError
    | Some root =>
        if Cabs_lt (Csub root (snd p1)) jump_limit
        then Ok (vstack points x_loc (PyComplex root), Qabs step_size, None,
                 x_loc)
        else Raise ValueError
    end.
Proof.
  intros Hrows Hnz.
  rewrite next_root_mp_handler by (rewrite Hrows; cbn; lia).
  unfold next_root_mp_short. rewrite Hrows, Hnz. short_rows.
  unfold call_findroot.
  destruct (findroot arguments _ _ _ _) as [root|]; cbn; [|reflexivity].
  destruct (Cabs_lt _ _); reflexivity.
Qed.

Lemma next_root_mp_reseeds points x_loc y_loc step_size arguments solver tol :
  (length (rows_of points) < 3)%nat ->
  all_nonzero (rows_of points) = false ->
  next_root_mp findroot x_loc y_loc step_size arguments points solver tol
  = match findroot arguments y_loc solver tol true with
    | None => Raise ValueError
    | Some root =>
        match set_first_row points x_loc (PyComplex root) with
        | Ok points' => Ok (points', Qabs step_size, None, x_loc)
        | Raise e => Raise e
        end
    end.
Proof.
  intros Hlen Hz. rewrite next_root_mp_handler by exact Hlen.
  unfold next_root_mp_short. rewrite Hz. cbn. unfold call_findroot.
  destruct (findroot arguments y_loc _ _ _) as [root|]; cbn; [|reflexivity].
  destruct (set_first_row points x_loc (PyComplex root)); reflexivity.
Qed.

(** [next_root] raises the solver's failure, the jump error, or the
    [TypeError] of a Python complex written into a float64 array. *)
Lemma next_root_raises points x_loc y_loc step_size arguments e :
  next_root newton x_loc y_loc step_size arguments points = Raise e ->
  solver_error e = true \/ e = TypeError.
Proof.
  intros Hrun.
  destruct (le_lt_dec 3 (length (rows_of points))) as [H3|H3].
  - destruct (three_rows_tail _ H3) as (rest & p3 & p2 & p1 & Hrows).
    rewrite (next_root_steady _ _ _ _ _ _ _ _ _ Hrows) in Hrun.
    destruct (newton arguments _) as [root|];
      [destruct (within_jump_limit _ _ _)|];
      try discriminate; injection Hrun as <-; left; reflexivity.
  - destruct (short_trace_cases points H3)
      as [Hnil | [Hz | [(p1 & Hrows & Hnz) | (p2 & p1 & Hrows & Hnz)]]].
    + rewrite next_root_no_rows in Hrun by exact Hnil. discriminate.
    + rewrite next_root_reseeds in Hrun by assumption.
      destruct (newton arguments y_loc) as [root|];
        [|injection Hrun as <-; left; reflexivity].
      destruct (set_first_row points x_loc root) as [a|e'] eqn:Hset;
        [discriminate|].
      injection Hrun as <-.
      apply set_first_row_raises in Hset as [[_ Hnil]|[-> _]].
      * apply all_nonzero_nil_rows in Hz. contradiction.
      * right. reflexivity.
    + rewrite (next_root_one_row _ _ _ _ _ _ Hrows Hnz) in Hrun.
      destruct (newton arguments _); [discriminate|].
      injection Hrun as <-. left. reflexivity.
    + rewrite (next_root_two_rows _ _ _ _ _ _ _ Hrows Hnz) in Hrun.
      destruct (newton arguments _) as [root|];
        [destruct (within_jump_limit _ _ _)|];
        try discriminate; injection Hrun as <-; left; reflexivity.
Qed.

(** [next_root_mp] raises [ValueError], for the solver's failure and for a
    jump, or the [TypeError] of the write in place; never [RuntimeError]. *)
Lemma next_root_mp_raises points x_loc y_loc step_size arguments solver tol
    e :
  next_root_mp findroot x_loc y_loc step_size arguments points solver tol
    = Raise e ->
  e = ValueError \/ e = TypeError.
Proof.
  intros Hrun.
  destruct (le_lt_dec 3 (length (rows_of points))) as [H3|H3].
  - destruct (three_rows_tail _ H3) as (rest & p3 & p2 & p1 & Hrows).
    rewrite (next_root_mp_steady _ _ _ _ _ _ _ _ _ _ _ Hrows) in Hrun.
    destruct (findroot arguments _ _ _ _) as [root|];
      [destruct (Cabs_lt _ _)|];
      try discriminate; injection Hrun as <-; left; reflexivity.
  - destruct (short_trace_cases points H3)
      as [Hnil | [Hz | [(p1 & Hrows & Hnz) | (p2 & p1 & Hrows & Hnz)]]].
    + rewrite next_root_mp_no_rows in Hrun by exact Hnil. discriminate.
    + rewrite next_root_mp_reseeds in Hrun by assumption.
      destruct (findroot arguments y_loc _ _ _) as [root|];
        [|injection Hrun as <-; left; reflexivity].
      destruct (set_first_row points x_loc (PyComplex root)) as [a|e']
        eqn:Hset; [discriminate|].
      injection Hrun as <-.
      apply set_first_row_raises in Hset as [[_ Hnil]|[-> _]].
      * apply all_nonzero_nil_rows in Hz. contradiction.
      * right. reflexivity.
    + rewrite (next_root_mp_one_row _ _ _ _ _ _ _ _ Hrows Hnz) in Hrun.
      destruct (findroot arguments _ _ _ _); [discriminate|].
      injection Hrun as <-. left. reflexivity.
    + rewrite (next_root_mp_two_rows _ _ _ _ _ _ _ _ _ Hrows Hnz) in Hrun.
      destruct (findroot arguments _ _ _ _) as [root|];
        [destruct (Cabs_lt _ _)|];
        try discriminate; injection Hrun as <-; left; reflexivity.
Qed.

(** Neither function shortens the trace. *)
Lemma next_root_length points x_loc y_loc step_size arguments points' s xe x :
  next_root newton x_loc y_loc step_size arguments points
    = Ok (points', s, xe, x) ->
  (length (rows_of points) <= length (rows_of points'))%nat.
Proof.
  intros Hrun.
  destruct (le_lt_dec 3 (length (rows_of points))) as [H3|H3].
  - destruct (three_rows_tail _ H3) as (rest & p3 & p2 & p1 & Hrows).
    rewrite (next_root_steady _ _ _ _ _ _ _ _ _ Hrows) in Hrun.
    destruct (newton arguments _) as [root|];
      [destruct (within_jump_limit _ _ _)|]; try discriminate.
    injection Hrun as <- _ _ _. rewrite length_vstack. lia.
  - destruct (short_trace_cases points H3)
      as [Hnil | [Hz | [(p1 & Hrows & Hnz) | (p2 & p1 & Hrows & Hnz)]]].
    + rewrite Hnil. cbn. lia.
    + rewrite next_root_reseeds in Hrun by assumption.
      destruct (newton arguments y_loc) as [root|]; [|discriminate].
      destruct (set_first_row points x_loc root) as [a|] eqn:Hset;
        [|discriminate].
      injection Hrun as <- _ _ _.
      rewrite (length_set_first_row _ _ _ _ Hset). lia.
    + rewrite (next_root_one_row _ _ _ _ _ _ Hrows Hnz) in Hrun.
      destruct (newton arguments _); [|discriminate].
      injection Hrun as <- _ _ _. rewrite length_vstack. lia.
    + rewrite (next_root_two_rows _ _ _ _ _ _ _ Hrows Hnz) in Hrun.
      destruct (newton arguments _) as [root|];
        [destruct (within_jump_limit _ _ _)|]; try discriminate.
      injection Hrun as <- _ _ _. rewrite length_vstack. lia.
Qed.

Lemma next_root_mp_length points x_loc y_loc step_size arguments solver tol
    points' s xe x :
  next_root_mp findroot x_loc y_loc step_size arguments points solver tol
    = Ok (points', s, xe, x) ->
  (length (rows_of points) <= length (rows_of points'))%nat.
Proof.
  intros Hrun.
  destruct (le_lt_dec 3 (length (rows_of points))) as [H3|H3].
  - destruct (three_rows_tail _ H3) as (rest & p3 & p2 & p1 & Hrows).
    rewrite (next_root_mp_steady _ _ _ _ _ _ _ _ _ _ _ Hrows) in Hrun.
    destruct (findroot arguments _ _ _ _) as [root|];
      [destruct (Cabs_lt _ _)|]; try discriminate.
    injection Hrun as <- _ _ _. rewrite length_vstack. lia.
  - destruct (short_trace_cases points H3)
      as [Hnil | [Hz | [(p1 & Hrows & Hnz) | (p2 & p1 & Hrows & Hnz)]]].
    + rewrite Hnil. cbn. lia.
    + rewrite next_root_mp_reseeds in Hrun by assumption.
      destruct (findroot arguments y_loc _ _ _) as [root|]; [|discriminate].
      destruct (set_first_row points x_loc (PyComplex root)) as [a|]
        eqn:Hset; [|discriminate].
      injection Hrun as <- _ _ _.
      rewrite (length_set_first_row _ _ _ _ Hset). lia.
    + rewrite (next_root_mp_one_row _ _ _ _ _ _ _ _ Hrows Hnz) in Hrun.
      destruct (findroot arguments _ _ _ _); [|discriminate].
      injection Hrun as <- _ _ _. rewrite length_vstack. lia.
    + rewrite (next_root_mp_two_rows _ _ _ _ _ _ _ _ _ Hrows Hnz) in Hrun.
      destruct (findroot arguments _ _ _ _) as [root|];
        [destruct (Cabs_lt _ _)|]; try discriminate.
      injection Hrun as <- _ _ _. rewrite length_vstack. lia.
Qed.

(** A solver that never converges makes every fixed-precision step fail. *)
Lemma next_root_fails points x_loc y_loc step_size arguments :
  (forall a g, newton a g = None) ->
  rows_of points <> [] ->
  next_root newton x_loc y_loc step_size arguments points
  = Raise RuntimeError.
Proof.
  intros Hfail Hne.
  destruct (le_lt_dec 3 (length (rows_of points))) as [H3|H3].
  - destruct (three_rows_tail _ H3) as (rest & p3 & p2 & p1 & Hrows).
    rewrite (next_root_steady _ _ _ _ _ _ _ _ _ Hrows), Hfail. reflexivity.
  - destruct (short_trace_cases points H3)
      as [Hnil | [Hz | [(p1 & Hrows & Hnz) | (p2 & p1 & Hrows & Hnz)]]].
    + contradiction.
    + rewrite next_root_reseeds, Hfail by assumption. reflexivity.
    + rewrite (next_root_one_row _ _ _ _ _ _ Hrows Hnz), Hfail. reflexivity.
    + rewrite (next_root_two_rows _ _ _ _ _ _ _ Hrows Hnz), Hfail.
      reflexivity.
Qed.

End ContinuationFacts.

(** ** [line_trace_sp] *)

Section LineTraceFacts.

Variable newton : list Q -> scalar -> option scalar.
Variable findroot : list Q -> scalar -> string -> Q -> bool -> option C.
Variable y_loc : scalar.
Variable step_init : Q.
Variables x_end_left x_end_right : Q.
Variable args : list (option Q).
Variable wordy : bool.
Variable solver : string.

Local Abbreviation left_attempt' :=
  (left_attempt newton findroot y_loc step_init args wordy solver).
Local Abbreviation right_attempt' := (right_attempt newton y_loc args).
Local Abbreviation escalate' := (escalate findroot y_loc args wordy solver).
Local Abbreviation loop_body' :=
  (loop_body newton findroot y_loc step_init args wordy solver).
Local Abbreviation left_loop' :=
  (left_loop newton findroot y_loc step_init x_end_left args wordy solver).
Local Abbreviation right_loop' :=
  (right_loop newton findroot y_loc step_init x_end_right args wordy solver).
Local Abbreviation left_state' :=
  (left_state newton findroot y_loc step_init x_end_left args wordy solver).

Lemma left_loop_unfold fuel st :
  left_loop' (S fuel) st
  = if Qle_bool x_end_left (ts_x_loc st)
    then match loop_body' Leftward st with
         | Ok st' => left_loop' fuel st'
         | Raise e => Some (Raise e)
         end
    else Some (Ok st).
Proof. reflexivity. Qed.

Lemma right_loop_unfold fuel st :
  right_loop' (S fuel) st
  = if Qle_bool (ts_x_loc st) x_end_right
    then match loop_body' Rightward st with
         | Ok st' => right_loop' fuel st'
         | Raise e => Some (Raise e)
         end
    else Some (Ok st).
Proof. reflexivity. Qed.

(** The recovery policy of the first loop. *)
Lemma left_attempt_recovers st e :
  next_root newton (ts_x_loc st) y_loc (- ts_step_size st)
    (bind_args args (ts_x_loc st)) (ts_points st) = Raise e ->
  solver_error e = true ->
  left_attempt' st
  = if above_threshold step_init st then Ok (shrink st) else escalate' st.
Proof.
  intros Hrun He. unfold left_attempt. rewrite Hrun, He. reflexivity.
Qed.

(** The second loop has no threshold and no escalation. *)
Lemma right_attempt_recovers st e :
  next_root newton (ts_x_loc st) y_loc (ts_step_size st)
    (bind_args args (ts_x_loc st)) (ts_points st) = Raise e ->
  solver_error e = true ->
  right_attempt' st = Ok (shrink st).
Proof.
  intros Hrun He. unfold right_attempt. rewrite Hrun, He. reflexivity.
Qed.

(** An iteration of the first loop raises a solver's error exactly when the
    fixed-precision step failed below the threshold and the escalation
    raised that error. *)
Lemma left_body_raises_solver_error st e :
  solver_error e = true ->
  loop_body' Leftward st = Raise e ->
  (exists e', solver_error e' = true
     /\ next_root newton (ts_x_loc st) y_loc (- ts_step_size st)
          (bind_args args (ts_x_loc st)) (ts_points st) = Raise e')
  /\ above_threshold step_init st = false
  /\ escalate' st = Raise e.
Proof.
  intros He. unfold loop_body. cbn [attempt_in]. unfold left_attempt.
  destruct (next_root newton (ts_x_loc st) y_loc (- ts_step_size st)
              (bind_args args (ts_x_loc st)) (ts_points st)) as [a|e'] eqn:Hrun.
  - cbn. discriminate.
  - destruct (solver_error e') eqn:He'.
    + destruct (above_threshold step_init st); cbn; [discriminate|].
      destruct (escalate' st) as [a|e0]; cbn; [discriminate|].
      intros [= ->]. split; [exists e'; split; [exact He'|reflexivity]|].
      split; reflexivity.
    + cbn. intros [= ->]. congruence.
Qed.

Lemma escalation_raises_in_body st e e' :
  solver_error e' = true ->
  next_root newton (ts_x_loc st) y_loc (- ts_step_size st)
    (bind_args args (ts_x_loc st)) (ts_points st) = Raise e' ->
  above_threshold step_init st = false ->
  escalate' st = Raise e ->
  loop_body' Leftward st = Raise e.
Proof.
  intros He' Hrun Hbelow Hesc. unfold loop_body. cbn [attempt_in].
  rewrite (left_attempt_recovers st e' Hrun He'), Hbelow, Hesc. reflexivity.
Qed.

(** An iteration of the first loop raises [ValueError] or [TypeError]. *)
Lemma left_body_raises st e :
  loop_body' Leftward st = Raise e -> e = ValueError \/ e = TypeError.
Proof.
  unfold loop_body. cbn [attempt_in]. unfold left_attempt.
  destruct (next_root newton (ts_x_loc st) y_loc (- ts_step_size st)
              (bind_args args (ts_x_loc st)) (ts_points st)) as [a|e'] eqn:Hrun.
  - cbn. discriminate.
  - destruct (solver_error e') eqn:He'.
    + destruct (above_threshold step_init st); cbn; [discriminate|].
      destruct (escalate' st) as [a|e0] eqn:Hesc; cbn; [discriminate|].
      intros [= ->]. exact (next_root_mp_raises _ _ _ _ _ _ _ _ _ Hesc).
    + cbn. intros [= <-].
      destruct (next_root_raises _ _ _ _ _ _ _ Hrun) as [H| ->];
        [congruence|right; reflexivity].
Qed.

(** An iteration of the second loop recovers every solver's error: it
    raises nothing but the [TypeError] of the write in place. *)
Lemma right_body_raises st e :
  loop_body' Rightward st = Raise e -> e = TypeError.
Proof.
  unfold loop_body. cbn [attempt_in]. unfold right_attempt.
  destruct (next_root newton (ts_x_loc st) y_loc (ts_step_size st)
              (bind_args args (ts_x_loc st)) (ts_points st)) as [a|e'] eqn:Hrun.
  - cbn. discriminate.
  - destruct (solver_error e') eqn:He'; cbn; [discriminate|].
    intros [= <-].
    destruct (next_root_raises _ _ _ _ _ _ _ Hrun) as [H| ->];
      [congruence|reflexivity].
Qed.

Lemma settle_points d xl a :
  ts_points (settle step_init d xl a) = fst (fst (fst a)).
Proof.
  destruct a as [[[points s] xe] x]. unfold settle.
  destruct xe, xl; try destruct (Qle_bool _ _); reflexivity.
Qed.

(** The trace never becomes empty. *)
Lemma loop_body_length d st st' :
  loop_body' d st = Ok st' ->
  (length (rows_of (ts_points st)) <= length (rows_of (ts_points st')))%nat.
Proof.
  unfold loop_body.
  destruct (attempt_in _ _ _ _ _ _ _ d st) as [a|e] eqn:Ha; cbn; [|discriminate].
  intros [= <-]. rewrite settle_points.
  destruct a as [[[points s] xe] x]. cbn.
  destruct d; cbn in Ha.
  - unfold left_attempt in Ha.
    destruct (next_root _ _ _ _ _ _) as [a'|e] eqn:Hrun.
    + injection Ha as ->. eapply next_root_length, Hrun.
    + destruct (solver_error e); [|discriminate].
      destruct (above_threshold step_init st).
      * injection Ha as <- _ _ _. reflexivity.
      * eapply next_root_mp_length, Ha.
  - unfold right_attempt in Ha.
    destruct (next_root _ _ _ _ _ _) as [a'|e] eqn:Hrun.
    + injection Ha as ->. eapply next_root_length, Hrun.
    + destruct (solver_error e); [|discriminate].
      injection Ha as <- _ _ _. reflexivity.
Qed.

(** The first loop raises exactly what one of its iterations raises. *)
Lemma left_loop_raises fuel : forall st e,
  left_loop' fuel st = Some (Raise e)
  <-> exists k st',
        (k < fuel)%nat
        /\ left_state' k st = Some st'
        /\ Qle_bool x_end_left (ts_x_loc st') = true
        /\ loop_body' Leftward st' = Raise e.
Proof.
  induction fuel as [|fuel IH]; intros st e.
  - split.
    + cbn. destruct (Qle_bool _ _); discriminate.
    + intros (k & _ & Hk & _). lia.
  - rewrite left_loop_unfold. split.
    + destruct (Qle_bool x_end_left (ts_x_loc st)) eqn:Htest; [|discriminate].
      destruct (loop_body' Leftward st) as [st1|e0] eqn:Hbody.
      * intros Hloop. apply IH in Hloop as (k & st' & Hk & Hst & Ht & Hb).
        exists (S k), st'. split; [lia|]. split; [|split; assumption].
        cbn [left_state]. rewrite Htest. unfold left_body. rewrite Hbody.
        exact Hst.
      * intros [= ->]. exists 0%nat, st.
        split; [lia|]. split; [reflexivity|]. split; assumption.
    + intros (k & st' & Hk & Hst & Ht & Hb).
      destruct k as [|k].
      * injection Hst as ->. rewrite Ht, Hb. reflexivity.
      * cbn [left_state] in Hst.
        destruct (Qle_bool x_end_left (ts_x_loc st)); [|discriminate].
        unfold left_body in Hst.
        destruct (loop_body' Leftward st) as [st1|e0]; [|discriminate].
        apply IH. exists k, st'. split; [lia|]. split; [|split]; assumption.
Qed.

Lemma left_loop_length fuel : forall st st',
  left_loop' fuel st = Some (Ok st') ->
  (length (rows_of (ts_points st)) <= length (rows_of (ts_points st')))%nat.
Proof.
  induction fuel as [|fuel IH]; intros st st'.
  - cbn. destruct (Qle_bool _ _); [discriminate|]. intros [= <-]. reflexivity.
  - rewrite left_loop_unfold.
    destruct (Qle_bool _ _); [|intros [= <-]; reflexivity].
    destruct (loop_body' Leftward st) as [st1|e0] eqn:Hbody; [|discriminate].
    intros Hloop. apply IH in Hloop.
    apply loop_body_length in Hbody. lia.
Qed.

(** The second loop raises nothing but [TypeError]. *)
Lemma right_loop_raises fuel : forall st e,
  right_loop' fuel st = Some (Raise e) -> e = TypeError.
Proof.
  induction fuel as [|fuel IH]; intros st e.
  - cbn. destruct (Qle_bool _ _); discriminate.
  - rewrite right_loop_unfold.
    destruct (Qle_bool _ _); [|discriminate].
    destruct (loop_body' Rightward st) as [st'|e0] eqn:Hbody.
    + apply IH.
    + intros [= ->]. exact (right_body_raises st e Hbody).
Qed.

Lemma rows_of_flip points : rows_of (flip points) = rev (rows_of points).
Proof. destruct points; cbn; [rewrite map_rev|]; reflexivity. Qed.

Lemma rows_of_round_x points :
  rows_of (round_x points)
  = map (fun p => (round4 (fst p), snd p)) (rows_of points).
Proof.
  destruct points; cbn; [|reflexivity].
  rewrite !map_map. reflexivity.
Qed.

Lemma turn_around_total st :
  rows_of (ts_points st) <> [] -> exists st', turn_around st = Ok st'.
Proof.
  intros Hne. unfold turn_around. rewrite rows_of_flip.
  destruct (rows_of (ts_points st)) as [|p points] eqn:Hp; [congruence|].
  cbn [rev].
  rewrite py_index_last. cbn. eauto.
Qed.

Lemma turn_around_raises st e :
  turn_around st = Raise e -> solver_error e = false.
Proof.
  unfold turn_around, py_index.
  repeat match goal with
         | |- context [if ?b then _ else _] => destruct b
         | |- context [match ?x with Some _ => _ | None => _ end] => destruct x
         end; cbn; try discriminate; intros [= <-]; reflexivity.
Qed.

End LineTraceFacts.

Section HalvingScenario.

Variable newton : list Q -> scalar -> option scalar.
Variable findroot : list Q -> scalar -> string -> Q -> bool -> option C.
Variable y_loc : scalar.
Variable args : list (option Q).
Variable wordy : bool.
Variable solver : string.
Hypothesis newton_fails : forall a g, newton a g = None.

Local Abbreviation body :=
  (left_body newton findroot y_loc (2 # 5) args wordy solver).

(** While the trace is the untouched buffer and the step is above the
    threshold, a failed iteration halves the step and moves on. *)
Lemma failed_iteration_shrinks x s xl :
  Qle_bool ((2 # 5) * (1 # 32)) s = true ->
  body (mkTrace x s xl zero_buffer)
  = Ok (mkTrace (x - s - s / 2) (s / 2)
          (match xl with None => Some (x - s) | Some _ => xl end)
          zero_buffer).
Proof.
  intros Habove. unfold left_body, loop_body. cbn [attempt_in].
  erewrite left_attempt_recovers;
    [ | apply next_root_fails; [exact newton_fails | discriminate]
      | reflexivity ].
  unfold above_threshold. cbn [ts_step_size]. rewrite Habove.
  destruct xl; reflexivity.
Qed.

Local Abbreviation attempt' :=
  (left_attempt newton findroot y_loc (2 # 5) args wordy solver).
Local Abbreviation escalate' := (escalate findroot y_loc args wordy solver).

Lemma failed_attempt st :
  ts_points st = zero_buffer ->
  attempt' st
  = if above_threshold (2 # 5) st then Ok (shrink st) else escalate' st.
Proof.
  intros Hp. eapply left_attempt_recovers;
    [ apply next_root_fails; [exact newton_fails | rewrite Hp; discriminate]
    | reflexivity ].
Qed.

(** C3 (amended): with an initial step size of 0.4 and a fixed-precision
    solver that fails every time, the leftward loop halves the step size
    six times, 0.4 down to 0.00625.  After [k <= 6] failures the step size
    is [0.4 / 2^k] and the trace is still the empty buffer; the next
    failure halves again while [k < 6], and after six halvings, at
    0.00625 < 0.0125, it is answered by the call of [next_root_mp]. *)
Theorem six_halvings_then_escalation x0 : forall k, (k <= 6)%nat ->
  exists st,
    iterate body k (mkTrace x0 (2 # 5) None zero_buffer) = Ok st
    /\ ts_step_size st == (2 # 5) * (1 # 2) ^ Z.of_nat k
    /\ ts_points st = zero_buffer
    /\ attempt' st
       = if (k <? 6)%nat then Ok (shrink st) else escalate' st.
Proof.
  intros k Hk.
  destruct k as [|[|[|[|[|[|[|k]]]]]]]; [| | | | | | | lia];
    (eexists; split;
     [ cbn [iterate];
       repeat (rewrite failed_iteration_shrinks by reflexivity;
               cbn [mbind result_bind]);
       reflexivity
     | split; [vm_compute; reflexivity |];
       split; [reflexivity |];
       rewrite failed_attempt by reflexivity; reflexivity ]).
Qed.

End HalvingScenario.

(** C3, the claim as stated fails: after three failures the step size is
    0.05, still above 0.0125, and the fourth failure halves it again; what
    the escalation would have returned is something else. *)
Lemma fourth_failure_halves_again :
  exists st3,
    iterate (left_body never_converges mp_returns_guess (Real 1) (2 # 5)
               [None] true "halley") 3 (mkTrace 1 (2 # 5) None zero_buffer)
    = Ok st3
    /\ ts_step_size st3 == 1 # 20
    /\ (2 # 5) * (1 # 32) < ts_step_size st3
    /\ left_attempt never_converges mp_returns_guess (Real 1) (2 # 5)
         [None] true "halley" st3 = Ok (shrink st3)
    /\ left_attempt never_converges mp_returns_guess (Real 1) (2 # 5)
         [None] true "halley" st3
       <> escalate mp_returns_guess (Real 1) [None] true "halley" st3.
Proof.
  eexists. split; [vm_compute; reflexivity|].
  split; [vm_compute; reflexivity|].
  split; [vm_compute; reflexivity|].
  split; [vm_compute; reflexivity|].
  vm_compute. discriminate.
Qed.

Lemma six_halvings_then_escalation_witness :
  exists st,
    iterate (left_body never_converges mp_returns_guess (Real 1) (2 # 5)
               [None] true "halley") 6 (mkTrace 1 (2 # 5) None zero_buffer)
    = Ok st
    /\ ts_step_size st == (2 # 5) * (1 # 2) ^ Z.of_nat 6
    /\ ts_points st = zero_buffer
    /\ left_attempt never_converges mp_returns_guess (Real 1) (2 # 5)
         [None] true "halley" st
       = if (6 <? 6)%nat then Ok (shrink st)
         else escalate mp_returns_guess (Real 1) [None] true "halley" st.
Proof.
  apply (six_halvings_then_escalation never_converges mp_returns_guess
           (Real 1) [None] true "halley" (fun _ _ => eq_refl) 1 6).
  lia.
Defined.

Section Escalation.

Variable newton : list Q -> scalar -> option scalar.
Variable findroot : list Q -> scalar -> string -> Q -> bool -> option C.
Variable y_loc : scalar.
Variable step_init : Q.
Variables x_end_left x_end_right : Q.
Variable args : list (option Q).
Variable wordy : bool.
Variable solver : string.

(** C4 (amended): [line_trace_sp] recovers every [RuntimeError] and
    [ValueError] of the fixed-precision step [next_root], in both sweeps;
    the errors of the escalation it does not catch.  Say that the
    escalation raises [e] when some iteration [k] of the leftward loop,
    within the fuel, is entered in a state [st] where the fixed-precision
    step fails with a solver's error, the step size is below
    [step_init / 32], and the call of [next_root_mp] raises [e].  Then
    - nothing but a [ValueError] or a [TypeError] leaves [line_trace_sp];
      in particular no [RuntimeError] does;
    - whatever the escalation raises leaves [line_trace_sp];
    - a [ValueError] leaves [line_trace_sp] only when the escalation raised
      it;
    - the rightward loop, which never escalates, raises no solver's error:
      all it can raise is the [TypeError] of a write in place. *)
Theorem line_trace_sp_solver_errors fuel x_loc :
  let run :=
    line_trace_sp newton findroot y_loc step_init x_end_left x_end_right
      args wordy solver fuel x_loc in
  let escalation_raises e :=
    exists k st,
      (k < fuel)%nat
      /\ left_state newton findroot y_loc step_init x_end_left args wordy
           solver k (mkTrace x_loc step_init None zero_buffer) = Some st
      /\ Qle_bool x_end_left (ts_x_loc st) = true
      /\ (exists e', solver_error e' = true
            /\ next_root newton (ts_x_loc st) y_loc (- ts_step_size st)
                 (bind_args args (ts_x_loc st)) (ts_points st) = Raise e')
      /\ above_threshold step_init st = false
      /\ escalate findroot y_loc args wordy solver st = Raise e in
  (forall e, run = Some (Raise e) -> e = ValueError \/ e = TypeError)
  /\ (forall e, escalation_raises e -> run = Some (Raise e))
  /\ (forall e, run = Some (Raise e) -> solver_error e = true ->
        escalation_raises e)
  /\ (forall fuel' st e,
        right_loop newton findroot y_loc step_init x_end_right args wordy
          solver fuel' st = Some (Raise e) ->
        e = TypeError).
Proof.
  intros run escalation_raises.
  split; [|split; [|split]].
  - intros e Hrun. subst run. unfold line_trace_sp in Hrun.
    destruct (left_loop _ _ _ _ _ _ _ _ fuel _) as [[st1|e1]|] eqn:Hleft;
      [| |discriminate].
    + apply left_loop_length in Hleft. cbn in Hleft.
      destruct (turn_around_total st1) as [st2 Hturn].
      { intros Hnil. rewrite Hnil in Hleft. cbn in Hleft. lia. }
      rewrite Hturn in Hrun.
      destruct (right_loop _ _ _ _ _ _ _ _ fuel st2) as [[st3|e3]|]
        eqn:Hright; try discriminate.
      injection Hrun as ->. right.
      exact (right_loop_raises _ _ _ _ _ _ _ _ _ _ _ Hright).
    + injection Hrun as ->.
      apply left_loop_raises in Hleft as (k & st & _ & _ & _ & Hb).
      exact (left_body_raises _ _ _ _ _ _ _ _ _ Hb).
  - intros e (k & st & Hk & Hst & Ht & (e' & He' & Hfail) & Hbelow & Hesc).
    subst run. unfold line_trace_sp.
    assert (Hleft : left_loop newton findroot y_loc step_init x_end_left args
                      wordy solver fuel
                      (mkTrace x_loc step_init None zero_buffer)
                    = Some (Raise e)).
    { apply left_loop_raises. exists k, st.
      split; [exact Hk|]. split; [exact Hst|]. split; [exact Ht|].
      eapply escalation_raises_in_body; eassumption. }
    rewrite Hleft. reflexivity.
  - intros e Hrun He. subst run. unfold line_trace_sp in Hrun.
    destruct (left_loop _ _ _ _ _ _ _ _ fuel _) as [[st1|e1]|] eqn:Hleft;
      [| |discriminate].
    + destruct (turn_around st1) as [st2|e2] eqn:Hturn.
      * destruct (right_loop _ _ _ _ _ _ _ _ fuel st2) as [[st3|e3]|]
          eqn:Hright; try discriminate.
        injection Hrun as ->.
        apply right_loop_raises in Hright. subst e. discriminate.
      * injection Hrun as ->. apply turn_around_raises in Hturn. congruence.
    + injection Hrun as ->.
      apply left_loop_raises in Hleft as (k & st & Hk & Hst & Ht & Hb).
      apply left_body_raises_solver_error in Hb as (Hfail & Hbelow & Hesc);
        [|exact He].
      exists k, st. repeat split; assumption.
  - intros fuel' st e. apply right_loop_raises.
Qed.

End Escalation.

(** C4, the claim as stated fails: with a fixed-precision solver and an
    arbitrary-precision solver that both never converge, the seventh
    iteration escalates and the [ValueError] of [next_root_mp] leaves
    [line_trace_sp]. *)
Lemma escalation_failure_reaches_caller :
  line_trace_sp never_converges mp_never_converges (Real 1) (2 # 5)
    (-10) 4 [None] true "halley" 10 1
  = Some (Raise ValueError).
Proof. vm_compute. reflexivity. Qed.

Lemma line_trace_sp_solver_errors_witness :
  exists k st,
    (k < 10)%nat
    /\ left_state never_converges mp_never_converges (Real 1) (2 # 5) (-10)
         [None] true "halley" k (mkTrace 1 (2 # 5) None zero_buffer) = Some st
    /\ Qle_bool (-10) (ts_x_loc st) = true
    /\ (exists e', solver_error e' = true
          /\ next_root never_converges (ts_x_loc st) (Real 1)
               (- ts_step_size st) (bind_args [None] (ts_x_loc st))
               (ts_points st) = Raise e')
    /\ above_threshold (2 # 5) st = false
    /\ escalate mp_never_converges (Real 1) [None] true "halley" st
       = Raise ValueError.
Proof.
  apply (proj1 (proj2 (proj2 (line_trace_sp_solver_errors never_converges
           mp_never_converges (Real 1) (2 # 5) (-10) 4 [None] true "halley"
           10 1))) ValueError).
  - vm_compute. reflexivity.
  - reflexivity.
Defined.

Section Recovery.

Variable newton : list Q -> scalar -> option scalar.
Variable findroot : list Q -> scalar -> string -> Q -> bool -> option C.
Variable y_loc : scalar.
Variable step_init : Q.
Variable args : list (option Q).
Variable wordy : bool.
Variable solver : string.

(** The restore test of the recovery chain, in either sweep: when a step
    completes without error and a shrink location [xl] is on record, the
    step size becomes [step_init] exactly when
    [|x_loc| - |xl| >= 10 * step_size]; otherwise the step size is kept.
    The record itself stays. *)
Lemma step_size_restored_on_magnitude_gap d st points s x xl :
  attempt_in newton findroot y_loc step_init args wordy solver d st
    = Ok (points, s, None, x) ->
  ts_x_error_loc st = Some xl ->
  exists st',
    loop_body newton findroot y_loc step_init args wordy solver d st = Ok st'
    /\ ts_x_error_loc st' = Some xl
    /\ (10 * s <= Qabs x - Qabs xl -> ts_step_size st' = step_init)
    /\ (Qabs x - Qabs xl < 10 * s -> ts_step_size st' = s).
Proof.
  intros Hrun Hxl. unfold loop_body. rewrite Hrun, Hxl. cbn.
  destruct (Qle_bool (10 * s) (Qabs x - Qabs xl)) eqn:Hgap;
    eexists; (split; [reflexivity|]); cbn;
    (split; [reflexivity|]); split; intros H; try reflexivity.
  - apply Qle_bool_iff in Hgap. exfalso. exact (Qlt_not_le _ _ H Hgap).
  - apply Qle_bool_iff in H. congruence.
Qed.

End Recovery.

(** C5: the restore does not happen in the leftward sweep.  With a shrink
    on record at [x = 1], a leftward step that succeeds at [x = 1/2] with
    step size [1/80] lies forty steps past the record, and the step size
    stays [1/80]: moving towards the origin, [|x_loc| - |x_error_loc|] is
    negative however far the sweep has come.  The mirror image in the
    rightward sweep, a step that succeeds at [x = 3/2], restores the
    initial step size [2/5]. *)
Theorem no_restore_when_moving_towards_zero :
  let st := mkTrace (1 # 2) (1 # 80) (Some 1) (FloatArray [(41 # 80, 2)]) in
  let st_right :=
    mkTrace (3 # 2) (1 # 80) (Some 1) (FloatArray [(119 # 80, 2)]) in
  (exists points st',
     left_attempt returns_guess mp_returns_guess (Real 2) (2 # 5) [None]
       true "halley" st = Ok (points, 1 # 80, None, 1 # 2)
     /\ ts_x_error_loc st = Some 1
     /\ 10 * (1 # 80) <= 1 - (1 # 2)
     /\ left_body returns_guess mp_returns_guess (Real 2) (2 # 5) [None]
          true "halley" st = Ok st'
     /\ ts_step_size st' = 1 # 80
     /\ ~ (1 # 80 == 2 # 5))
  /\ (exists points st',
        right_attempt returns_guess (Real 2) [None] st_right
          = Ok (points, 1 # 80, None, 3 # 2)
        /\ ts_x_error_loc st_right = Some 1
        /\ 10 * (1 # 80) <= (3 # 2) - 1
        /\ right_body returns_guess mp_returns_guess (Real 2) (2 # 5) [None]
             true "halley" st_right = Ok st'
        /\ ts_step_size st' = 2 # 5).
Proof.
  split.
  - do 2 eexists.
    split; [vm_compute; reflexivity|].
    split; [reflexivity|].
    split; [vm_compute; discriminate|].
    split; [vm_compute; reflexivity|].
    split; [reflexivity|].
    vm_compute. discriminate.
  - do 2 eexists.
    split; [vm_compute; reflexivity|].
    split; [reflexivity|].
    split; [vm_compute; discriminate|].
    split; [vm_compute; reflexivity|].
    reflexivity.
Qed.

(** C2: below the threshold the rightward sweep still halves.  At step size
    [1/160] with an initial step size of [2/5] a failed step of the rightward
    loop shrinks the step again, where the leftward loop calls
    [next_root_mp]. *)
Theorem right_sweep_halves_below_threshold :
  let st := mkTrace 1 (1 # 160) (Some (3 # 5)) (FloatArray [(79 # 80, 2)]) in
  above_threshold (2 # 5) st = false
  /\ right_attempt never_converges (Real 2) [None] st = Ok (shrink st)
  /\ left_attempt never_converges mp_returns_guess (Real 2) (2 # 5) [None]
       true "halley" st
     = escalate mp_returns_guess (Real 2) [None] true "halley" st
  /\ escalate mp_returns_guess (Real 2) [None] true "halley" st
     <> Ok (shrink st).
Proof.
  repeat split; try (vm_compute; reflexivity).
  vm_compute. discriminate.
Qed.

(** C1: [next_root_mp] appends a row one x-unit away from the last one.
    With three rows ending at [x = 6/5] and a root within the y-bound, the
    row at [x = 2] is appended although [|2 - 6/5| >= 0.1]; on the same
    input [next_root] raises the jump error. *)
Theorem next_root_mp_ignores_x_bound :
  let points := FloatArray [(1, 1); (11 # 10, 21 # 20); (6 # 5, 11 # 10)] in
  let root := of_real (9 # 8) in
  next_root_mp (mp_converges_to root) 2 (Real 1) (1 # 20) [2] points
    "halley" (1 # 1000)
  = Ok (ComplexArray (rows_of points ++ [(2, root)]), 1 # 20, None, 2)
  /\ jump_limit <= Qabs (2 - (6 # 5))
  /\ next_root (converges_to (NpComplex root)) 2 (Real 1) (1 # 20) [2] points
     = Raise ValueError.
Proof.
  repeat split; try (vm_compute; reflexivity).
  vm_compute. discriminate.
Qed.

(** C6: two rows with a zero coordinate are not extrapolated.  The trace
    [(0, 1), (1/20, 21/20)] has two rows, yet [next_root] solves afresh from
    [y_loc] and overwrites the first row; the linear prediction
    [21/20 + 1/20 + 1e-20i] is never handed to the solver. *)
Theorem next_root_two_rows_with_zero_reseeds :
  let points := FloatArray [(0, 1); (1 # 20, 21 # 20)] in
  next_root returns_guess (1 # 10) (Real 1) (1 # 20) [1 # 10] points
  = Ok (FloatArray [(1 # 10, 1); (1 # 20, 21 # 20)], 1 # 20, None, 1 # 10)
  /\ next_root returns_guess (1 # 10) (Real 1) (1 # 20) [1 # 10] points
     <> Ok (ComplexArray
              (rows_of points
               ++ [(1 # 10,
                    Cadd (Cadd (of_real (21 # 20))
                            (linear_increment (0, of_real 1)
                               (1 # 20, of_real (21 # 20)) (1 # 20)))
                         tiny_imag)]),
            1 # 20, None, 1 # 10).
Proof.
  split; [vm_compute; reflexivity|].
  vm_compute. discriminate.
Qed.

(** ** The grid scanner *)

(** The snapping test is one-sided: it holds for every negative imaginary
    part, however large. *)
Lemma snaps_iff root :
  snaps root = true <-> ~ im root == 0 /\ im root < 1 # 100000.
Proof.
  unfold snaps, Qlt_bool. rewrite andb_true_iff, !negb_true_iff. split.
  - intros [Hz Hlt]. split.
    + intros H. apply Qeq_bool_iff in H. congruence.
    + apply Qnot_le_lt. intros H. apply Qle_bool_iff in H. congruence.
  - intros [Hz Hlt]. split.
    + destruct (Qeq_bool (im root) 0) eqn:E; [|reflexivity].
      apply Qeq_bool_iff in E. contradiction.
    + destruct (Qle_bool (1 # 100000) (im root)) eqn:E; [|reflexivity].
      apply Qle_bool_iff in E. exfalso. exact (Qlt_not_le _ _ Hlt E).
Qed.

(** Small non-zero imaginary parts of either sign are dropped. *)
Lemma snap_small root :
  ~ im root == 0 -> Qabs (im root) < 1 # 100000 ->
  snap root = of_real (re root).
Proof.
  intros Hz Hsmall. unfold snap.
  assert (Hs : snaps root = true).
  { apply snaps_iff. split; [exact Hz|].
    eapply Qle_lt_trans; [apply Qle_Qabs | exact Hsmall]. }
  rewrite Hs. reflexivity.
Qed.

(** C7: a root far below the real axis loses its imaginary part.  The root
    [1/2 - i] lies inside the y-range [0, 1], is accepted, and is stored as
    [1/2]: its imaginary part has magnitude 1, not below [1e-5]. *)
Theorem grid_solver_snaps_large_negative_imag :
  snd (grid_solver (fun _ _ => of_real 0) converges_below_axis
         (fun _ _ _ => None) (fun _ _ _ => None)
         [0; 1] (mkAxes "x" "y") [0] ∅ "sp.newton")
  = Ok [(0, of_real (1 # 2))]
  /\ snap (mkC (1 # 2) (-1)) = of_real (1 # 2)
  /\ ~ Qabs (im (mkC (1 # 2) (-1))) < 1 # 100000.
Proof.
  split; [vm_compute; reflexivity|].
  split; [vm_compute; reflexivity|].
  vm_compute. discriminate.
Qed.

Section GridSolverFacts.

Variable func : gmap string Q -> Q -> C.
Variable newton : gmap string Q -> Q -> option C.
Variable brentq : gmap string Q -> Q -> Q -> option Q.
Variable brenth : gmap string Q -> Q -> Q -> option Q.
Variable y_range : list Q.
Variable axes : axes_dict.

Lemma swept_cons x xs (args : gmap string Q) :
  swept axes xs (<[x_axis axes := x]> args) = swept axes (x :: xs) args.
Proof.
  unfold swept. rewrite last_cons.
  destruct (last xs); [apply insert_insert_eq | reflexivity].
Qed.

Lemma newton_sweep_args xs : forall args points,
  fst (newton_sweep newton y_range axes xs args points) = swept axes xs args.
Proof.
  induction xs as [|x xs IH]; intros args points; [reflexivity|].
  cbn [newton_sweep]. rewrite IH. apply swept_cons.
Qed.

Lemma brent_sweep_args brent step_size xs : forall args points args' points',
  brent_sweep func y_range axes brent step_size xs args points
    = (args', Ok points') ->
  args' = swept axes xs args.
Proof.
  induction xs as [|x xs IH]; intros args points args' points'.
  - cbn. intros [= <- _]. reflexivity.
  - cbn [brent_sweep].
    destruct (brent_column _ _ _ _ _ _ _ _) as [pts|e]; [|discriminate].
    intros Hrun. rewrite (IH _ _ _ _ Hrun). apply swept_cons.
Qed.

(** The Newton branch writes the dictionary whether or not a root is found. *)
Lemma grid_solver_newton_args x_range args :
  fst (grid_solver func newton brentq brenth y_range axes x_range args
         "sp.newton")
  = swept axes x_range args.
Proof.
  unfold grid_solver. cbn [String.eqb Ascii.eqb Bool.eqb].
  pose proof (newton_sweep_args x_range args []) as Hargs.
  destruct (newton_sweep _ _ _ _ _ _) as [a p]. exact Hargs.
Qed.

Lemma report_ok points points' : report points = Ok points' -> points <> [].
Proof. destruct points; [discriminate | discriminate]. Qed.

(** A bracketing sweep either runs through all of [xs], or stops in the
    column of some [x], which the dictionary then holds. *)
Lemma brent_sweep_outcome brent step_size xs : forall args points,
  match brent_sweep func y_range axes brent step_size xs args points with
  | (args', Ok points') => args' = swept axes xs args
  | (args', Raise e) =>
      exists before x after points1,
        xs = before ++ x :: after
        /\ brent_sweep func y_range axes brent step_size before args points
           = (swept axes before args, Ok points1)
        /\ brent_column func y_range brent (<[x_axis axes := x]> args) x
             step_size y_range points1 = Raise e
        /\ args' = <[x_axis axes := x]> args
  end.
Proof.
  induction xs as [|x xs IH]; intros args points; [reflexivity|].
  cbn [brent_sweep].
  destruct (brent_column _ _ _ _ _ _ _ _) as [pts|e] eqn:Hcol.
  - specialize (IH (<[x_axis axes := x]> args) pts).
    destruct (brent_sweep _ _ _ _ _ _ _ _) as [a [p|e]].
    + rewrite IH. apply swept_cons.
    + destruct IH as (before & x1 & after & points1 & -> & Hrun & Hraise & ->).
      exists (x :: before), x1, after, points1.
      split; [reflexivity|]. split; [|split].
      * cbn [brent_sweep]. rewrite Hcol, Hrun, swept_cons. reflexivity.
      * rewrite <- Hraise. f_equal. symmetry. apply insert_insert_eq.
      * apply insert_insert_eq.
  - exists [], x, xs, points. repeat split. exact Hcol.
Qed.

(** C9: [grid_solver] leaves the x-axis key in the caller's dictionary, bound
    to the last value of [x_range], whatever the method and whether or not
    it returns.
    - With [sp.newton] the dictionary after the call is the one passed in
      with the key bound to the last x, on every outcome, also when no root
      was found and the report raises.
    - With [sp.brentq] and [sp.brenth], once the half step is computed: if
      the sweep runs through, the dictionary is again the one passed in
      with the key bound to the last x, whatever the report does; if the
      column of some [x] raises, the call raises the same exception and
      the key is bound to that [x].  When the half step already fails,
      on an empty [y_range], nothing is written.
    - So whenever the call returns, whatever the method, the key is bound
      to the last value of [x_range]. *)
Theorem grid_solver_leaves_last_x_in_args x_range args :
  let solve := grid_solver func newton brentq brenth y_range axes x_range args in
  fst (solve "sp.newton") = swept axes x_range args
  /\ (forall method brent,
        (method = "sp.brentq"%string /\ brent = brentq)
        \/ (method = "sp.brenth"%string /\ brent = brenth) ->
        (forall e, half_step y_range = Raise e -> solve method = (args, Raise e))
        /\ forall step_size,
             half_step y_range = Ok step_size ->
             let sweep :=
               brent_sweep func y_range axes brent step_size x_range args [] in
             (forall points,
                snd sweep = Ok points ->
                solve method = (swept axes x_range args, report points))
             /\ (forall e,
                   snd sweep = Raise e ->
                   exists before x after points,
                     x_range = before ++ x :: after
                     /\ brent_sweep func y_range axes brent step_size before
                          args []
                        = (swept axes before args, Ok points)
                     /\ brent_column func y_range brent
                          (<[x_axis axes := x]> args) x step_size y_range
                          points = Raise e
                     /\ solve method = (<[x_axis axes := x]> args, Raise e)))
  /\ (forall method args' points,
        solve method = (args', Ok points) ->
        exists x_last,
          last x_range = Some x_last
          /\ args' = <[x_axis axes := x_last]> args).
Proof.
  intros solve.
  assert (Hbrent : forall method brent,
            (method = "sp.brentq"%string /\ brent = brentq)
            \/ (method = "sp.brenth"%string /\ brent = brenth) ->
            solve method
            = match half_step y_range with
              | Raise e => (args, Raise e)
              | Ok step_size =>
                  let '(args', r) :=
                    brent_sweep func y_range axes brent step_size x_range
                      args [] in
                  (args', points ← r; report points)
              end).
  { intros method brent [[-> ->]|[-> ->]]; reflexivity. }
  split; [apply grid_solver_newton_args|]. split.
  - intros method brent Hm. rewrite (Hbrent method brent Hm).
    split; [intros e ->; reflexivity|].
    intros step_size -> sweep. subst sweep.
    pose proof (brent_sweep_outcome brent step_size x_range args []) as Hout.
    destruct (brent_sweep _ _ _ _ _ _ _ _) as [a [p|e0]]; cbn [snd]; split.
    + intros points [= <-]. rewrite Hout. reflexivity.
    + intros e He. discriminate.
    + intros points He. discriminate.
    + intros e [= <-].
      destruct Hout as (before & x & after & points1 & Hx & Hrun & Hraise & ->).
      exists before, x, after, points1. repeat split; assumption.
  - intros method args' points Hrun.
    assert (Hlast : forall a : gmap string Q,
              x_range <> [] -> a = swept axes x_range args ->
              exists x_last, last x_range = Some x_last
                             /\ a = <[x_axis axes := x_last]> args).
    { intros a Hne ->. unfold swept.
      destruct (last x_range) as [x|] eqn:Hl; [eauto|].
      apply last_None in Hl. contradiction. }
    subst solve. unfold grid_solver in Hrun.
    destruct (String.eqb method "sp.newton").
    + destruct (newton_sweep _ _ _ _ _ _) as [a p] eqn:Hsweep.
      injection Hrun as <- Hrep. apply Hlast.
      * intros ->. cbn in Hsweep. injection Hsweep as _ <-. discriminate.
      * rewrite <- (newton_sweep_args x_range args []), Hsweep. reflexivity.
    + destruct (String.eqb method "sp.brentq").
      * destruct (half_step y_range) as [step_size|e]; [|discriminate].
        destruct (brent_sweep _ _ _ _ _ _ _ _) as [a [p|e]] eqn:Hsweep;
          [|discriminate].
        cbn in Hrun. injection Hrun as <- Hrep. apply Hlast.
        -- intros ->. cbn in Hsweep. injection Hsweep as _ <-. discriminate.
        -- eapply brent_sweep_args, Hsweep.
      * destruct (String.eqb method "sp.brenth"); [|discriminate].
        destruct (half_step y_range) as [step_size|e]; [|discriminate].
        destruct (brent_sweep _ _ _ _ _ _ _ _) as [a [p|e]] eqn:Hsweep;
          [|discriminate].
        cbn in Hrun. injection Hrun as <- Hrep. apply Hlast.
        -- intros ->. cbn in Hsweep. injection Hsweep as _ <-. discriminate.
        -- eapply brent_sweep_args, Hsweep.
Qed.

End GridSolverFacts.

(** ** [find_sign_change] *)

Section FindSignChangeFacts.

Variable func : gmap string kwval -> result (list (list C)).

(** C8 (amended): [find_sign_change] raises the [TypeError] of a repeated
    keyword, before the equation is evaluated, exactly when [args] has a
    key equal to [axes['x_axis']] or [axes['y_axis']].  Any other [args],
    empty or not, reaches the equation, which receives the entries of
    [args] together with the two grids; the entries bound by [partial] are
    overridden by the identical ones of the call, not repeated. *)
Theorem find_sign_change_type_error_iff_axis_key x_range y_range axes
    (args : gmap string Q) :
  find_sign_change func x_range y_range axes args
  = let x_grid := fst (meshgrid x_range y_range) in
    let y_grid := snd (meshgrid x_range y_range) in
    if decide (x_axis axes ∈ dom args \/ y_axis axes ∈ dom args)
    then Raise TypeError
    else
      match func (<[x_axis axes := Grid x_grid]>
                    (<[y_axis axes := Grid y_grid]> (Scalar <$> args))) with
      | Raise e => Raise e
      | Ok func_grid =>
          if same_shape func_grid x_grid
          then Ok (flagged func_grid x_grid y_grid)
          else Raise IndexError
      end.
Proof.
  unfold find_sign_change, meshgrid, call_kwargs, partial_call. cbn [fst snd].
  set (x_grid := map (fun _ => x_range) y_range).
  set (y_grid := map (fun y => map (fun _ => y) x_range) y_range).
  set (stored := Scalar <$> args).
  assert (Hdom : dom (<[x_axis axes := Grid x_grid]>
                        (<[y_axis axes := Grid y_grid]> (∅ : gmap string kwval)))
                 = ({[x_axis axes; y_axis axes]} : gset string)).
  { rewrite !dom_insert_L, dom_empty_L, (right_id_L ∅ (∪)). reflexivity. }
  assert (Hstored : dom stored = dom args) by apply dom_fmap_L.
  rewrite Hdom, Hstored.
  destruct (decide ({[x_axis axes; y_axis axes]} ##@{gset string} dom args))
    as [Hdisj|Hclash];
    destruct (decide (x_axis axes ∈ dom args \/ y_axis axes ∈ dom args))
    as [Hin|Hout]; cbn.
  - exfalso. rewrite elem_of_disjoint in Hdisj.
    destruct Hin as [Hin|Hin]; eapply Hdisj; try exact Hin.
    + apply elem_of_union_l, elem_of_singleton. reflexivity.
    + apply elem_of_union_r, elem_of_singleton. reflexivity.
  - rewrite <- (assoc_L (∪)), (idemp_L (∪) stored).
    rewrite <- !insert_union_l, (left_id_L ∅ (∪)).
    destruct (func _); reflexivity.
  - reflexivity.
  - exfalso. apply Hclash. rewrite elem_of_disjoint. intros k Hk Hargs.
    apply Hout.
    apply elem_of_union in Hk as [Hk|Hk]; apply elem_of_singleton in Hk;
      subst k; [left | right]; exact Hargs.
Qed.

End FindSignChangeFacts.

(** C8, the claim as stated fails: with the non-empty dictionary
    [{'k': 1}] the call runs to completion, the equation sees [k], and the
    sign change between the rows [y = 0] and [y = 2] is reported at
    [y = 2]. *)
Lemma find_sign_change_accepts_extra_argument :
  find_sign_change offset_equation [0; 1] [0; 2] (mkAxes "x" "y") {["k"%string := 1]}
  = Ok [(0, 2); (1, 2)].
Proof. vm_compute. reflexivity. Qed.

Lemma grid_solver_leaves_last_x_in_args_witness :
  let flat := fun (_ : gmap string Q) (_ : Q) => of_real 1 in
  let none := fun (_ : gmap string Q) (_ _ : Q) => @None Q in
  let args : gmap string Q := {["k"%string := 3]} in
  grid_solver flat (fun _ _ => None) none none [0] (mkAxes "x" "y")
    [7; 8] args "sp.brenth"
  = (<["x"%string := 8]> args, Raise IndexError)
  /\ grid_solver flat (fun _ _ => None) none none [] (mkAxes "x" "y")
       [7; 8] args "sp.brentq"
     = (args, Raise IndexError)
  /\ fst (grid_solver flat (fun _ _ => None) none none [0; 1]
            (mkAxes "x" "y") [7; 8] args "sp.newton")
     = <["x"%string := 8]> args.
Proof.
  intros flat none args.
  split; [|split].
  - pose proof (grid_solver_leaves_last_x_in_args flat (fun _ _ => None)
                  none none [0] (mkAxes "x" "y") [7; 8] args)
      as (_ & Hbrent & _).
    destruct (Hbrent "sp.brenth"%string none
                (or_intror (conj eq_refl eq_refl))) as [_ Hstep].
    destruct (Hstep _ eq_refl) as [Hthrough _].
    apply (Hthrough []).
    vm_compute. reflexivity.
  - pose proof (grid_solver_leaves_last_x_in_args flat (fun _ _ => None)
                  none none [] (mkAxes "x" "y") [7; 8] args)
      as (_ & Hbrent & _).
    destruct (Hbrent "sp.brentq"%string none
                (or_introl (conj eq_refl eq_refl))) as [Hhalf _].
    apply (Hhalf IndexError).
    reflexivity.
  - exact (proj1 (grid_solver_leaves_last_x_in_args flat (fun _ _ => None)
                    none none [0; 1] (mkAxes "x" "y") [7; 8] args)).
Defined.

(** ** [find_first_imag] *)

Section FindFirstImagFacts.

Variable newton : list Q -> Q -> option C.
Variable y_range : list Q.
Variable args : list (option Q).

(** The test of the source, spelled out on the two parts of the root.  The
    comparisons with the ends of [y_range] are numpy's lexicographic ones:
    with a positive imaginary part, a real part equal to the first value
    passes the lower test and one equal to the last value fails the upper
    test. *)
Lemma first_imag_test_iff root :
  first_imag_test y_range root = true
  <-> hd 0 y_range <= re root
      /\ re root < List.last y_range 0
      /\ 1 # 100000 < im root.
Proof.
  unfold first_imag_test, within, Clt. cbn [re im of_real].
  rewrite !andb_true_iff, !orb_true_iff, !andb_true_iff, !Qlt_bool_iff.
  split.
  - intros [[[Hlo|[Hlo _]] [Hhi|[_ Hhi]]] Him];
      try apply Qeq_bool_iff in Hlo; repeat split; lra.
  - intros (Hlo & Hhi & Him). split; [split|]; [|left; exact Hhi|exact Him].
    destruct (Qlt_le_dec (hd 0 y_range) (re root)) as [H|H];
      [left; exact H|right].
    split; [apply Qeq_bool_iff|]; lra.
Qed.

Lemma first_imag_column_none arguments x ys :
  first_imag_column newton y_range arguments x ys = None
  <-> forall y root,
        In y ys -> newton arguments y = Some root ->
        first_imag_test y_range root = false.
Proof.
  induction ys as [|y ys IH]; cbn [first_imag_column].
  - split; [intros _ y root []|reflexivity].
  - destruct (newton arguments y) as [root|] eqn:Hroot;
      [destruct (first_imag_test y_range root) eqn:Htest|].
    + split; [discriminate|]. intros H.
      specialize (H y root (or_introl eq_refl) Hroot). congruence.
    + rewrite IH. split.
      * intros H y' root' [<-|Hin] Hn; [congruence|eauto].
      * intros H y' root' Hin. apply H. right. exact Hin.
    + rewrite IH. split.
      * intros H y' root' [<-|Hin] Hn; [congruence|eauto].
      * intros H y' root' Hin. apply H. right. exact Hin.
Qed.

Lemma first_imag_column_first arguments x ys found :
  first_imag_column newton y_range arguments x ys = Some found ->
  exists ys1 y ys2 root,
    ys = ys1 ++ y :: ys2
    /\ found = (x, root)
    /\ newton arguments y = Some root
    /\ first_imag_test y_range root = true
    /\ first_imag_column newton y_range arguments x ys1 = None.
Proof.
  induction ys as [|y ys IH]; [discriminate|].
  cbn [first_imag_column].
  destruct (newton arguments y) as [root|] eqn:Hroot;
    [destruct (first_imag_test y_range root) eqn:Htest|].
  - intros [= <-]. exists [], y, ys, root. repeat split; assumption.
  - intros H. destruct (IH H) as (ys1 & y1 & ys2 & root1 & -> & -> & Hn & Ht & Hnone).
    exists (y :: ys1), y1, ys2, root1. repeat split; try assumption.
    cbn [first_imag_column]. rewrite Hroot, Htest. exact Hnone.
  - intros H. destruct (IH H) as (ys1 & y1 & ys2 & root1 & -> & -> & Hn & Ht & Hnone).
    exists (y :: ys1), y1, ys2, root1. repeat split; try assumption.
    cbn [first_imag_column]. rewrite Hroot. exact Hnone.
Qed.

Lemma find_first_imag_from_none xs :
  find_first_imag_from newton y_range args xs = None
  <-> forall x, In x xs ->
        first_imag_column newton y_range (bind_args args x) x y_range = None.
Proof.
  induction xs as [|x xs IH]; cbn [find_first_imag_from].
  - split; [intros _ x []|reflexivity].
  - destruct (first_imag_column _ _ _ _ _) as [found|] eqn:Hcol.
    + split; [discriminate|]. intros H.
      specialize (H x (or_introl eq_refl)). congruence.
    + rewrite IH. split.
      * intros H x' [<-|Hin]; [exact Hcol|eauto].
      * intros H x' Hin. apply H. right. exact Hin.
Qed.

Lemma find_first_imag_from_first xs found :
  find_first_imag_from newton y_range args xs = Some found ->
  exists xs1 x xs2,
    xs = xs1 ++ x :: xs2
    /\ first_imag_column newton y_range (bind_args args x) x y_range
       = Some found
    /\ find_first_imag_from newton y_range args xs1 = None.
Proof.
  induction xs as [|x xs IH]; [discriminate|].
  cbn [find_first_imag_from].
  destruct (first_imag_column _ _ _ _ _) as [found'|] eqn:Hcol.
  - intros [= <-]. exists [], x, xs. repeat split. exact Hcol.
  - intros H. destruct (IH H) as (xs1 & x1 & xs2 & -> & Hc & Hnone).
    exists (x :: xs1), x1, xs2. repeat split; [exact Hc|].
    cbn [find_first_imag_from]. rewrite Hcol. exact Hnone.
Qed.

(** C10 (amended): a candidate [(x, y)] is accepted when the solver, run
    from [y] with the parameters of [args] in which every [None] is
    replaced by [x], converges to a root whose real part [r] satisfies
    [y_range[0] <= r < y_range[-1]] and whose imaginary part is greater
    than [1e-5].  [find_first_imag] returns [None] exactly when no
    candidate of the grid is accepted; otherwise it returns [[x, root]] for
    the first accepted candidate in the order of the loops: the values of
    [x_range] in the order given, and for each of them the values of
    [y_range] in the order given. *)
Theorem find_first_imag_first_hit x_range :
  let accepts (root : C) :=
    hd 0 y_range <= re root
    /\ re root < List.last y_range 0
    /\ 1 # 100000 < im root in
  let solve (x y : Q) :=
    newton (map (fun i => match i with None => x | Some v => v end) args) y in
  (find_first_imag newton y_range x_range args = None
   <-> forall x y root,
         In x x_range -> In y y_range -> solve x y = Some root ->
         ~ accepts root)
  /\ (forall x root,
        find_first_imag newton y_range x_range args = Some (x, root) ->
        exists xs1 xs2 ys1 y ys2,
          x_range = xs1 ++ x :: xs2
          /\ y_range = ys1 ++ y :: ys2
          /\ solve x y = Some root
          /\ accepts root
          /\ (forall x' y' root',
                In x' xs1 -> In y' y_range -> solve x' y' = Some root' ->
                ~ accepts root')
          /\ (forall y' root',
                In y' ys1 -> solve x y' = Some root' -> ~ accepts root')).
Proof.
  intros accepts solve.
  assert (Hrej : forall root,
            first_imag_test y_range root = false <-> ~ accepts root).
  { intros root. unfold accepts. rewrite <- first_imag_test_iff.
    destruct (first_imag_test y_range root); split;
      congruence || discriminate || (intros H; exfalso; apply H; reflexivity). }
  assert (Hcol : forall x ys,
            first_imag_column newton y_range (bind_args args x) x ys = None
            <-> forall y root, In y ys -> solve x y = Some root ->
                               ~ accepts root).
  { intros x ys. rewrite first_imag_column_none. split.
    - intros H y root Hin Hn. apply Hrej. exact (H y root Hin Hn).
    - intros H y root Hin Hn. apply Hrej. exact (H y root Hin Hn). }
  unfold find_first_imag. split.
  - rewrite find_first_imag_from_none. split.
    + intros H x y root Hx. apply Hcol. exact (H x Hx).
    + intros H x Hx. apply Hcol. intros y root. exact (H x y root Hx).
  - intros x root Hfound.
    apply find_first_imag_from_first in Hfound
      as (xs1 & x1 & xs2 & -> & Hc & Hnone).
    apply first_imag_column_first in Hc
      as (ys1 & y & ys2 & root1 & Hys & [= <- <-] & Hn & Ht & Hnone1).
    exists xs1, xs2, ys1, y, ys2.
    split; [reflexivity|]. split; [exact Hys|]. split; [exact Hn|].
    split; [apply first_imag_test_iff; exact Ht|]. split.
    + intros x' y' root' Hx'.
      apply Hcol. exact (proj1 (find_first_imag_from_none xs1) Hnone x' Hx').
    + apply Hcol. exact Hnone1.
Qed.

End FindFirstImagFacts.

(** C10, the claim as stated fails.  A root [i], whose real part is the
    first value of [y_range], is not strictly between the first and the
    last value, and it is returned; with [x_range = [2, 1]] the pair
    returned is the one at [x = 2], the first in the order given, although
    the candidate at [x = 1] is accepted too. *)
Lemma find_first_imag_takes_the_given_order :
  let newton := fun (_ : list Q) (_ : Q) => Some (mkC 0 1) in
  find_first_imag newton [0; 1] [2; 1] [None] = Some (2, mkC 0 1)
  /\ re (mkC 0 1) == hd 0 [0; 1]
  /\ ~ hd 0 [0; 1] < re (mkC 0 1)
  /\ find_first_imag newton [0; 1] [1] [None] = Some (1, mkC 0 1)
  /\ 1 < 2.
Proof.
  split; [vm_compute; reflexivity|].
  split; [reflexivity|].
  split; [vm_compute; discriminate|].
  split; [vm_compute; reflexivity|].
  reflexivity.
Qed.

Lemma find_first_imag_first_hit_witness :
  let newton := fun (_ : list Q) (y : Q) =>
    if Qeq_bool y 1 then Some (mkC (1 # 2) (1 # 2)) else Some (of_real y) in
  let accepts (root : C) :=
    hd 0 [0; 1; 2] <= re root
    /\ re root < List.last [0; 1; 2] 0
    /\ 1 # 100000 < im root in
  let solve (x y : Q) :=
    newton (map (fun i => match i with None => x | Some v => v end)
              [None; Some 3]) y in
  exists xs1 xs2 ys1 y ys2,
    [5; 6] = xs1 ++ 5 :: xs2
    /\ [0; 1; 2] = ys1 ++ y :: ys2
    /\ solve 5 y = Some (mkC (1 # 2) (1 # 2))
    /\ accepts (mkC (1 # 2) (1 # 2))
    /\ (forall x' y' root',
          In x' xs1 -> In y' [0; 1; 2] -> solve x' y' = Some root' ->
          ~ accepts root')
    /\ (forall y' root',
          In y' ys1 -> solve 5 y' = Some root' -> ~ accepts root').
Proof.
  apply (proj2 (find_first_imag_first_hit
                  (fun (_ : list Q) (y : Q) =>
                     if Qeq_bool y 1 then Some (mkC (1 # 2) (1 # 2))
                     else Some (of_real y))
                  [0; 1; 2] [None; Some 3] [5; 6])).
  vm_compute. reflexivity.
Defined.

(** * Further properties *)

(** ** The two step functions *)

Section StepFunctions.

Variable newton : list Q -> scalar -> option scalar.
Variable findroot : list Q -> scalar -> string -> Q -> bool -> option C.

(** X1: on a trace that has three rows or more, or no zero entry, a
    successful [next_root] leaves every existing row alone and appends
    exactly one row, at [x_loc]; it hands back [|step_size|], no error
    location, and [x_loc] itself. *)
Theorem next_root_appends_one_row points x_loc y_loc step_size arguments
    points' s xe x :
  rows_of points <> [] ->
  (3 <= length (rows_of points))%nat \/ all_nonzero (rows_of points) = true ->
  next_root newton x_loc y_loc step_size arguments points
    = Ok (points', s, xe, x) ->
  exists root,
    points' = vstack points x_loc root
    /\ rows_of points' = rows_of points ++ [(x_loc, value root)]
    /\ s = Qabs step_size /\ xe = None /\ x = x_loc.
Proof.
  intros Hne Hkind Hrun.
  destruct (le_lt_dec 3 (length (rows_of points))) as [H3|H3].
  - destruct (three_rows_tail _ H3) as (rest & p3 & p2 & p1 & Hrows).
    rewrite (next_root_steady _ _ _ _ _ _ _ _ _ _ Hrows) in Hrun.
    destruct (newton arguments _) as [root|]; [|discriminate].
    destruct (within_jump_limit x_loc (value root) p1); [|discriminate].
    injection Hrun as <- <- <- <-. exists root.
    rewrite rows_of_vstack. repeat split.
  - destruct Hkind as [Hlen|Hnz]; [lia|].
    destruct (short_trace_cases points H3)
      as [Hnil | [Hz | [(p1 & Hrows & Hnz1) | (p2 & p1 & Hrows & Hnz2)]]].
    + contradiction.
    + congruence.
    + rewrite (next_root_one_row _ _ _ _ _ _ _ Hrows Hnz1) in Hrun.
      destruct (newton arguments _) as [root|]; [|discriminate].
      injection Hrun as <- <- <- <-. exists root.
      rewrite rows_of_vstack. repeat split.
    + rewrite (next_root_two_rows _ _ _ _ _ _ _ _ Hrows Hnz2) in Hrun.
      destruct (newton arguments _) as [root|]; [|discriminate].
      destruct (within_jump_limit x_loc (value root) p1); [|discriminate].
      injection Hrun as <- <- <- <-. exists root.
      rewrite rows_of_vstack. repeat split.
Qed.

(** X2: the jump test starts with the third point.  On a trace of fewer than
    two rows nothing is compared with the previous point: when the solvers
    converge, both step functions succeed for any [x_loc] and whatever the
    root, with one exception, which is not a jump.  When the single row
    holds a zero and the array is a float64 one, the root is written into
    it in place: [next_root] raises [TypeError] if the root is a Python
    complex, and [next_root_mp], whose root always is one, raises it every
    time. *)
Theorem no_jump_test_before_third_point points x_loc y_loc step_size
    arguments solver tol :
  (length (rows_of points) < 2)%nat ->
  (forall x0, is_Some (newton arguments x0)) ->
  (forall x0 verbose, is_Some (findroot arguments x0 solver tol verbose)) ->
  let float_seed :=
    all_nonzero (rows_of points) = false
    /\ exists rows, points = FloatArray rows in
  let python_complex := exists z, newton arguments y_loc = Some (PyComplex z) in
  (float_seed /\ python_complex ->
   next_root newton x_loc y_loc step_size arguments points = Raise TypeError)
  /\ (~ (float_seed /\ python_complex) ->
      exists a,
        next_root newton x_loc y_loc step_size arguments points = Ok a)
  /\ (float_seed ->
      next_root_mp findroot x_loc y_loc step_size arguments points solver tol
      = Raise TypeError)
  /\ (~ float_seed ->
      exists a,
        next_root_mp findroot x_loc y_loc step_size arguments points solver
          tol = Ok a).
Proof.
  intros Hlen Hnewton Hmp float_seed python_complex.
  assert (H3 : (length (rows_of points) < 3)%nat) by lia.
  destruct (short_trace_cases points H3)
    as [Hnil | [Hz | [(p1 & Hrows & Hnz) | (p2 & p1 & Hrows & _)]]];
    [| | |rewrite Hrows in Hlen; cbn in Hlen; lia].
  - (* no rows *)
    assert (Hnot : ~ float_seed).
    { intros [Hz _]. rewrite Hnil in Hz. discriminate. }
    rewrite next_root_no_rows, next_root_mp_no_rows by exact Hnil.
    split; [intros [Hs _]; contradiction|].
    split; [eauto|]. split; [intros Hs; contradiction|eauto].
  - (* one row holding a zero *)
    rewrite next_root_reseeds, next_root_mp_reseeds by assumption.
    destruct (Hnewton y_loc) as [root Hroot].
    destruct (Hmp y_loc true) as [root_mp Hroot_mp].
    rewrite Hroot, Hroot_mp.
    assert (Hne : rows_of points <> []) by (apply all_nonzero_nil_rows, Hz).
    destruct points as [[|r rows]|[|r rows]]; try (exfalso; apply Hne; reflexivity).
    + split; [|split; [|split]].
      * intros [_ [z Hz']]. rewrite Hroot in Hz'. injection Hz' as ->.
        reflexivity.
      * intros Hnot. destruct root; cbn; eauto.
        exfalso. apply Hnot. split; [split; [exact Hz|eauto]|].
        exists z. exact Hroot.
      * intros _. reflexivity.
      * intros Hnot. exfalso. apply Hnot. split; [exact Hz|eauto].
    + split; [|split; [|split]].
      * intros [[_ [rows' Hrows']] _]. discriminate.
      * intros _. cbn. eauto.
      * intros [_ [rows' Hrows']]. discriminate.
      * intros _. cbn. eauto.
  - (* one row without a zero *)
    assert (Hnot : ~ float_seed).
    { intros [Hz _]. rewrite Hrows in Hz. congruence. }
    rewrite (next_root_one_row _ _ _ _ _ _ _ Hrows Hnz).
    rewrite (next_root_mp_one_row _ _ _ _ _ _ _ _ _ Hrows Hnz).
    destruct (Hnewton (entry points (snd p1))) as [root ->].
    destruct (Hmp (entry points (snd p1)) true) as [root_mp ->].
    split; [intros [Hs _]; contradiction|].
    split; [eauto|]. split; [intros Hs; contradiction|eauto].
Qed.

(** X3: whatever [next_root_mp] appends to a trace of two rows or more is
    within the jump limit of the last y. *)
Theorem next_root_mp_append_within_y_limit points x_loc y_loc step_size
    arguments solver tol points' s xe x :
  (2 <= length (rows_of points))%nat ->
  next_root_mp findroot x_loc y_loc step_size arguments points solver tol
    = Ok (points', s, xe, x) ->
  length (rows_of points') = S (length (rows_of points)) ->
  exists root p1,
    points' = ComplexArray (rows_of points ++ [(x_loc, root)])
    /\ py_index (rows_of points) (-1) = Ok p1
    /\ Cnorm2 (Csub root (snd p1)) < jump_limit * jump_limit.
Proof.
  intros Hlen Hrun Hgrow.
  assert (Hlim : forall (root : C) (p1 : row),
            Cabs_lt (Csub root (snd p1)) jump_limit = true ->
            Cnorm2 (Csub root (snd p1)) < jump_limit * jump_limit).
  { intros root p1 H. unfold Cabs_lt, Qlt_bool in H.
    apply negb_true_iff in H.
    apply Qnot_le_lt. intros Hle. apply Qle_bool_iff in Hle. congruence. }
  assert (Hstack : forall root,
            vstack points x_loc (PyComplex root)
            = ComplexArray (rows_of points ++ [(x_loc, root)])).
  { intros root. destruct points; reflexivity. }
  destruct (le_lt_dec 3 (length (rows_of points))) as [H3|H3].
  - destruct (three_rows_tail _ H3) as (rest & p3 & p2 & p1 & Hrows).
    rewrite (next_root_mp_steady _ _ _ _ _ _ _ _ _ _ _ _ Hrows) in Hrun.
    destruct (findroot arguments _ _ _ _) as [root|]; [|discriminate].
    destruct (Cabs_lt (Csub root (snd p1)) jump_limit) eqn:Hok; [|discriminate].
    injection Hrun as <- _ _ _.
    exists root, p1. split; [apply Hstack|].
    split; [rewrite Hrows; apply py_index_tail3|]. apply Hlim, Hok.
  - destruct (short_trace_cases points H3)
      as [Hnil | [Hz | [(p1 & Hrows & Hnz) | (p2 & p1 & Hrows & Hnz)]]].
    + rewrite Hnil in Hlen. cbn in Hlen. lia.
    + rewrite next_root_mp_reseeds in Hrun by assumption.
      destruct (findroot arguments y_loc _ _ _) as [root|]; [|discriminate].
      destruct (set_first_row points x_loc (PyComplex root)) as [a|]
        eqn:Hset; [|discriminate].
      injection Hrun as <- _ _ _.
      rewrite (length_set_first_row _ _ _ _ Hset) in Hgrow. lia.
    + rewrite Hrows in Hlen. cbn in Hlen. lia.
    + rewrite (next_root_mp_two_rows _ _ _ _ _ _ _ _ _ _ Hrows Hnz) in Hrun.
      destruct (findroot arguments _ _ _ _) as [root|]; [|discriminate].
      destruct (Cabs_lt (Csub root (snd p1)) jump_limit) eqn:Hok; [|discriminate].
      injection Hrun as <- _ _ _.
      exists root, p1. split; [apply Hstack|].
      split; [rewrite Hrows; reflexivity|]. apply Hlim, Hok.
Qed.

(** X21: a short trace with a zero coordinate loses its first point.  On one
    or two rows of which some entry is zero, a step adds nothing: the root
    solved afresh from [y_loc] is written, with [x_loc], over the first row
    of the array itself, and every other row stays.  The array keeps its
    element type: a float64 array stores the real part of the root of
    [next_root] and refuses a Python complex, so that on a float64 array
    [next_root_mp], once its solver has converged, raises [TypeError]. *)
Theorem reseed_overwrites_first_row points x_loc y_loc step_size arguments
    solver tol :
  (length (rows_of points) < 3)%nat ->
  all_nonzero (rows_of points) = false ->
  (forall points' s xe x,
     next_root newton x_loc y_loc step_size arguments points
       = Ok (points', s, xe, x) ->
     exists root,
       newton arguments y_loc = Some root
       /\ points'
          = match points with
            | FloatArray rows =>
                FloatArray (<[0%nat := (x_loc, re (value root))]> rows)
            | ComplexArray rows =>
                ComplexArray (<[0%nat := (x_loc, value root)]> rows)
            end
       /\ forall rows z, points = FloatArray rows -> root <> PyComplex z)
  /\ (forall points' s xe x,
        next_root_mp findroot x_loc y_loc step_size arguments points solver
          tol = Ok (points', s, xe, x) ->
        exists root rows,
          findroot arguments y_loc solver tol true = Some root
          /\ points = ComplexArray rows
          /\ points' = ComplexArray (<[0%nat := (x_loc, root)]> rows))
  /\ (forall rows root,
        points = FloatArray rows ->
        (newton arguments y_loc = Some (PyComplex root) ->
         next_root newton x_loc y_loc step_size arguments points
         = Raise TypeError)
        /\ (findroot arguments y_loc solver tol true = Some root ->
            next_root_mp findroot x_loc y_loc step_size arguments points
              solver tol = Raise TypeError)).
Proof.
  intros Hlen Hz.
  assert (Hne : rows_of points <> []) by (apply all_nonzero_nil_rows, Hz).
  rewrite next_root_reseeds, next_root_mp_reseeds by assumption.
  split; [|split].
  - intros points' s xe x Hrun.
    destruct (newton arguments y_loc) as [root|]; [|discriminate].
    exists root. split; [reflexivity|].
    destruct points as [[|r rows]|[|r rows]]; try (exfalso; apply Hne; reflexivity).
    + destruct root; cbn in Hrun; try discriminate;
        injection Hrun as <- _ _ _; (split; [reflexivity|]);
        intros rows' z' _; discriminate.
    + cbn in Hrun. injection Hrun as <- _ _ _.
      split; [reflexivity|]. intros rows' z' Hp. discriminate.
  - intros points' s xe x Hrun.
    destruct (findroot arguments y_loc solver tol true) as [root|];
      [|discriminate].
    destruct points as [[|r rows]|[|r rows]]; try (exfalso; apply Hne; reflexivity);
      cbn in Hrun; try discriminate.
    injection Hrun as <- _ _ _. exists root, (r :: rows). repeat split.
  - intros rows root ->.
    destruct rows as [|r rows]; [exfalso; apply Hne; reflexivity|].
    split; intros ->; reflexivity.
Qed.

End StepFunctions.

(** ** Invariants of the two sweeps *)

Section SweepInvariants.

Variable newton : list Q -> scalar -> option scalar.
Variable findroot : list Q -> scalar -> string -> Q -> bool -> option C.
Variable y_loc : scalar.
Variable step_init : Q.
Variables x_end_left x_end_right : Q.
Variable args : list (option Q).
Variable wordy : bool.
Variable solver : string.

Local Abbreviation attempt_in' :=
  (attempt_in newton findroot y_loc step_init args wordy solver).
Local Abbreviation loop_body' :=
  (loop_body newton findroot y_loc step_init args wordy solver).
Local Abbreviation left_loop' :=
  (left_loop newton findroot y_loc step_init x_end_left args wordy solver).
Local Abbreviation right_loop' :=
  (right_loop newton findroot y_loc step_init x_end_right args wordy solver).

Lemma next_root_returns points x_loc step_size arguments points' s xe x :
  next_root newton x_loc y_loc step_size arguments points
    = Ok (points', s, xe, x) ->
  s = Qabs step_size /\ xe = None /\ x = x_loc.
Proof.
  intros Hrun.
  destruct (le_lt_dec 3 (length (rows_of points))) as [H3|H3].
  - destruct (three_rows_tail _ H3) as (rest & p3 & p2 & p1 & Hrows).
    rewrite (next_root_steady _ _ _ _ _ _ _ _ _ _ Hrows) in Hrun.
    destruct (newton arguments _) as [root|];
      [destruct (within_jump_limit _ _ _)|]; try discriminate.
    injection Hrun as _ <- <- <-. repeat split.
  - destruct (short_trace_cases points H3)
      as [Hnil | [Hz | [(p1 & Hrows & Hnz) | (p2 & p1 & Hrows & Hnz)]]].
    + rewrite next_root_no_rows in Hrun by exact Hnil.
      injection Hrun as _ <- <- <-. repeat split.
    + rewrite next_root_reseeds in Hrun by assumption.
      destruct (newton arguments y_loc) as [root|]; [|discriminate].
      destruct (set_first_row points x_loc root); [|discriminate].
      injection Hrun as _ <- <- <-. repeat split.
    + rewrite (next_root_one_row _ _ _ _ _ _ _ Hrows Hnz) in Hrun.
      destruct (newton arguments _); [|discriminate].
      injection Hrun as _ <- <- <-. repeat split.
    + rewrite (next_root_two_rows _ _ _ _ _ _ _ _ Hrows Hnz) in Hrun.
      destruct (newton arguments _) as [root|];
        [destruct (within_jump_limit _ _ _)|]; try discriminate.
      injection Hrun as _ <- <- <-. repeat split.
Qed.

Lemma next_root_mp_returns points x_loc step_size arguments tol points' s xe x :
  next_root_mp findroot x_loc y_loc step_size arguments points solver tol
    = Ok (points', s, xe, x) ->
  s = Qabs step_size /\ xe = None /\ x = x_loc.
Proof.
  intros Hrun.
  destruct (le_lt_dec 3 (length (rows_of points))) as [H3|H3].
  - destruct (three_rows_tail _ H3) as (rest & p3 & p2 & p1 & Hrows).
    rewrite (next_root_mp_steady _ _ _ _ _ _ _ _ _ _ _ _ Hrows) in Hrun.
    destruct (findroot arguments _ _ _ _) as [root|];
      [destruct (Cabs_lt _ _)|]; try discriminate.
    injection Hrun as _ <- <- <-. repeat split.
  - destruct (short_trace_cases points H3)
      as [Hnil | [Hz | [(p1 & Hrows & Hnz) | (p2 & p1 & Hrows & Hnz)]]].
    + rewrite next_root_mp_no_rows in Hrun by exact Hnil.
      injection Hrun as _ <- <- <-. repeat split.
    + rewrite next_root_mp_reseeds in Hrun by assumption.
      destruct (findroot arguments y_loc _ _ _) as [root|]; [|discriminate].
      destruct (set_first_row points x_loc (PyComplex root)); [|discriminate].
      injection Hrun as _ <- <- <-. repeat split.
    + rewrite (next_root_mp_one_row _ _ _ _ _ _ _ _ _ Hrows Hnz) in Hrun.
      destruct (findroot arguments _ _ _ _); [|discriminate].
      injection Hrun as _ <- <- <-. repeat split.
    + rewrite (next_root_mp_two_rows _ _ _ _ _ _ _ _ _ _ Hrows Hnz) in Hrun.
      destruct (findroot arguments _ _ _ _) as [root|];
        [destruct (Cabs_lt _ _)|]; try discriminate.
      injection Hrun as _ <- <- <-. repeat split.
Qed.

(** What an iteration can bring back from its [try] statement: a step that
    went through, at the current [x_loc]; or a shrink. *)
Lemma attempt_cases d st points s xe x :
  attempt_in' d st = Ok (points, s, xe, x) ->
  (xe = None /\ x = ts_x_loc st /\ s == Qabs (ts_step_size st))
  \/ (xe = Some (ts_x_loc st - ts_step_size st)
      /\ x = ts_x_loc st - ts_step_size st
      /\ s = ts_step_size st / 2
      /\ points = ts_points st
      /\ (d = Leftward -> above_threshold step_init st = true)).
Proof.
  destruct d; cbn [attempt_in]; unfold left_attempt, right_attempt.
  - destruct (next_root _ _ _ _ _ _) as [a|e] eqn:Hrun.
    + intros [= ->]. apply next_root_returns in Hrun as (-> & -> & ->).
      left. repeat split. apply Qabs_opp.
    + destruct (solver_error e); [|discriminate].
      destruct (above_threshold step_init st) eqn:Habove.
      * intros [= <- <- <- <-]. right. repeat split.
      * intros Hmp. apply next_root_mp_returns in Hmp as (-> & -> & ->).
        left. repeat split.
  - destruct (next_root _ _ _ _ _ _) as [a|e] eqn:Hrun.
    + intros [= ->]. apply next_root_returns in Hrun as (-> & -> & ->).
      left. repeat split.
    + destruct (solver_error e); [|discriminate].
      intros [= <- <- <- <-]. right. repeat split. discriminate.
Qed.

(** The same for a whole iteration: where [x_loc] and the step size end
    up. *)
Lemma loop_body_cases d st st' :
  loop_body' d st = Ok st' ->
  let move x s := match d with Leftward => x - s | Rightward => x + s end in
  ((ts_step_size st' == Qabs (ts_step_size st)
    \/ ts_step_size st' = step_init)
   /\ ts_x_loc st' = move (ts_x_loc st) (ts_step_size st'))
  \/ (ts_step_size st' = ts_step_size st / 2
      /\ ts_x_loc st'
         = move (ts_x_loc st - ts_step_size st) (ts_step_size st / 2)
      /\ ts_points st' = ts_points st
      /\ (d = Leftward -> above_threshold step_init st = true)).
Proof.
  unfold loop_body.
  destruct (attempt_in' d st) as [[[[points s] xe] x]|e] eqn:Ha; cbn;
    [|discriminate].
  intros [= <-].
  apply attempt_cases in Ha
    as [(-> & -> & Hs)|(-> & -> & -> & -> & Habove)].
  - left. unfold settle.
    destruct (ts_x_error_loc st) as [xl|];
      [destruct (Qle_bool _ _)|]; cbn; (split; [|destruct d; reflexivity]);
      auto.
  - right. unfold settle.
    destruct (ts_x_error_loc st) as [xl|]; cbn;
      (split; [reflexivity|]); (split; [destruct d; reflexivity|]); auto.
Qed.

Lemma left_loop_invariant (P : trace_state -> Prop) :
  (forall st st', loop_body' Leftward st = Ok st' -> P st -> P st') ->
  forall fuel st st', left_loop' fuel st = Some (Ok st') -> P st -> P st'.
Proof.
  intros Hstep fuel.
  induction fuel as [|fuel IH]; intros st st'.
  - cbn. destruct (Qle_bool _ _); [discriminate|]. intros [= <-]. auto.
  - rewrite left_loop_unfold.
    destruct (Qle_bool _ _); [|intros [= <-]; auto].
    destruct (loop_body' Leftward st) as [st1|e] eqn:Hbody; [|discriminate].
    intros Hloop Hst. exact (IH _ _ Hloop (Hstep _ _ Hbody Hst)).
Qed.

Lemma right_loop_invariant (P : trace_state -> Prop) :
  (forall st st', loop_body' Rightward st = Ok st' -> P st -> P st') ->
  forall fuel st st', right_loop' fuel st = Some (Ok st') -> P st -> P st'.
Proof.
  intros Hstep fuel.
  induction fuel as [|fuel IH]; intros st st'.
  - cbn. destruct (Qle_bool _ _); [discriminate|]. intros [= <-]. auto.
  - rewrite right_loop_unfold.
    destruct (Qle_bool _ _); [|intros [= <-]; auto].
    destruct (loop_body' Rightward st) as [st1|e] eqn:Hbody; [|discriminate].
    intros Hloop Hst. exact (IH _ _ Hloop (Hstep _ _ Hbody Hst)).
Qed.

Lemma loop_body_step_bounds d st st' :
  0 < step_init ->
  loop_body' d st = Ok st' ->
  0 < ts_step_size st /\ ts_step_size st <= step_init ->
  0 < ts_step_size st' /\ ts_step_size st' <= step_init.
Proof.
  intros Hinit Hbody [Hpos Hle].
  assert (Habs : Qabs (ts_step_size st) == ts_step_size st)
    by (apply Qabs_pos; lra).
  apply loop_body_cases in Hbody as [[[Hs|Hs] _]|(Hs & _)]; rewrite Hs.
  - rewrite Habs. lra.
  - lra.
  - split.
    + apply Qlt_shift_div_l; lra.
    + apply Qle_shift_div_r; lra.
Qed.

(** X4: with a positive initial step size, the step size stays positive and
    never exceeds the initial one, through either sweep. *)
Theorem step_size_stays_within_initial fuel st st' :
  0 < step_init ->
  0 < ts_step_size st /\ ts_step_size st <= step_init ->
  left_loop newton findroot y_loc step_init x_end_left args wordy solver
    fuel st = Some (Ok st')
  \/ right_loop newton findroot y_loc step_init x_end_right args wordy solver
       fuel st = Some (Ok st') ->
  0 < ts_step_size st' /\ ts_step_size st' <= step_init.
Proof.
  intros Hinit Hst [Hloop|Hloop].
  - revert Hloop Hst.
    apply (left_loop_invariant
             (fun st => 0 < ts_step_size st /\ ts_step_size st <= step_init)).
    intros s1 s2 Hbody. exact (loop_body_step_bounds _ _ _ Hinit Hbody).
  - revert Hloop Hst.
    apply (right_loop_invariant
             (fun st => 0 < ts_step_size st /\ ts_step_size st <= step_init)).
    intros s1 s2 Hbody. exact (loop_body_step_bounds _ _ _ Hinit Hbody).
Qed.

Lemma left_body_floor st st' :
  0 <= step_init ->
  loop_body' Leftward st = Ok st' ->
  step_init * (1 # 64) <= ts_step_size st ->
  step_init * (1 # 64) <= ts_step_size st'.
Proof.
  intros Hinit Hbody Hfloor.
  apply loop_body_cases in Hbody as [[[Hs|Hs] _]|(Hs & _ & _ & Habove)];
    rewrite Hs.
  - pose proof (Qle_Qabs (ts_step_size st)). lra.
  - lra.
  - specialize (Habove eq_refl). unfold above_threshold in Habove.
    apply Qle_bool_iff in Habove.
    apply Qle_shift_div_l; lra.
Qed.

(** X5: in the leftward sweep the step size never falls below
    [step_init / 64]: a step is halved only while it is at least
    [step_init / 32]. *)
Theorem left_sweep_step_size_floor fuel st st' :
  0 <= step_init ->
  step_init * (1 # 64) <= ts_step_size st ->
  left_loop newton findroot y_loc step_init x_end_left args wordy solver
      fuel st = Some (Ok st') ->
  step_init * (1 # 64) <= ts_step_size st'.
Proof.
  intros Hinit Hst Hloop. revert Hloop Hst.
  apply (left_loop_invariant
           (fun st => step_init * (1 # 64) <= ts_step_size st)).
  intros s1 s2 Hbody. exact (left_body_floor _ _ Hinit Hbody).
Qed.

Lemma loop_body_keeps_error_loc d st st' xl :
  loop_body' d st = Ok st' ->
  ts_x_error_loc st = Some xl -> ts_x_error_loc st' = Some xl.
Proof.
  unfold loop_body.
  destruct (attempt_in' d st) as [[[[points s] xe] x]|e]; cbn; [|discriminate].
  intros [= <-] ->. unfold settle.
  destruct xe; [|destruct (Qle_bool _ _)]; reflexivity.
Qed.

(** X6: the recorded shrink location is written once.  Once [x_error_loc]
    holds a location, no later iteration of either sweep changes it, and
    the turn between the sweeps carries it over: it is the place of the
    first shrink of the whole trace. *)
Theorem error_location_is_written_once fuel st st' xl :
  ts_x_error_loc st = Some xl ->
  left_loop newton findroot y_loc step_init x_end_left args wordy solver
      fuel st = Some (Ok st')
  \/ right_loop newton findroot y_loc step_init x_end_right args wordy solver
      fuel st = Some (Ok st')
  \/ turn_around st = Ok st' ->
  ts_x_error_loc st' = Some xl.
Proof.
  intros Hst [Hloop|[Hloop|Hturn]].
  - revert Hloop Hst.
    apply (left_loop_invariant (fun st => ts_x_error_loc st = Some xl)).
    intros s1 s2. apply loop_body_keeps_error_loc.
  - revert Hloop Hst.
    apply (right_loop_invariant (fun st => ts_x_error_loc st = Some xl)).
    intros s1 s2. apply loop_body_keeps_error_loc.
  - unfold turn_around in Hturn.
    destruct (py_index _ _); cbn in Hturn; [|discriminate].
    injection Hturn as <-. exact Hst.
Qed.

Lemma failed_attempt_shrinks d st e :
  next_root newton (ts_x_loc st) y_loc
    (match d with
     | Leftward => - ts_step_size st
     | Rightward => ts_step_size st
     end)
    (bind_args args (ts_x_loc st)) (ts_points st) = Raise e ->
  solver_error e = true ->
  (d = Leftward -> above_threshold step_init st = true) ->
  attempt_in' d st = Ok (shrink st).
Proof.
  intros Hrun He Habove. destruct d; cbn [attempt_in].
  - rewrite (left_attempt_recovers _ _ _ _ _ _ _ _ _ Hrun He).
    rewrite (Habove eq_refl). reflexivity.
  - exact (right_attempt_recovers _ _ _ _ _ Hrun He).
Qed.

(** X7: where a failed step leaves the sweep.  When the fixed-precision step
    fails, with the solver's [RuntimeError] or the jump's [ValueError], and
    the step is halved, the leftward sweep goes on at
    [x_loc - 3/2 step_size], further along its way, and the rightward sweep
    at [x_loc - 1/2 step_size], back towards the last point; the trace is
    untouched and the first location of this kind is put on record. *)
Theorem failed_step_moves d st e :
  next_root newton (ts_x_loc st) y_loc
    (match d with
     | Leftward => - ts_step_size st
     | Rightward => ts_step_size st
     end)
    (bind_args args (ts_x_loc st)) (ts_points st) = Raise e ->
  solver_error e = true ->
  (d = Leftward -> above_threshold step_init st = true) ->
  exists st',
    loop_body newton findroot y_loc step_init args wordy solver d st = Ok st'
    /\ ts_x_loc st'
       == ts_x_loc st
          - (match d with Leftward => 3 # 2 | Rightward => 1 # 2 end)
            * ts_step_size st
    /\ ts_step_size st' = ts_step_size st / 2
    /\ ts_points st' = ts_points st
    /\ ts_x_error_loc st'
       = match ts_x_error_loc st with
         | None => Some (ts_x_loc st - ts_step_size st)
         | Some xl => Some xl
         end.
Proof.
  intros Hrun He Habove. unfold loop_body.
  rewrite (failed_attempt_shrinks d st e Hrun He Habove). cbn. eexists. split; [reflexivity|].
  unfold shrink, settle.
  destruct (ts_x_error_loc st) as [xl|]; cbn;
    (split; [destruct d; field|]); repeat split.
Qed.

(** X8: a rightward sweep whose fixed-precision step keeps failing never
    ends.  Each failure moves [x_loc] back by half a step, so the loop test
    [x_loc <= x_end_right] stays true: no amount of fuel is enough. *)
Theorem right_sweep_diverges_under_failure fuel : forall st,
  (forall a g, newton a g = None) ->
  rows_of (ts_points st) <> [] ->
  0 <= ts_step_size st ->
  ts_x_loc st <= x_end_right ->
  right_loop newton findroot y_loc step_init x_end_right args wordy solver
      fuel st = None.
Proof.
  induction fuel as [|fuel IH]; intros st Hfail Hne Hpos Hx.
  - cbn. apply Qle_bool_iff in Hx. rewrite Hx. reflexivity.
  - rewrite right_loop_unfold.
    pose proof Hx as Hx'. apply Qle_bool_iff in Hx'. rewrite Hx'.
    unfold loop_body.
    rewrite (failed_attempt_shrinks Rightward st RuntimeError)
      by (try discriminate; try reflexivity;
          apply next_root_fails; assumption).
    cbn [mbind result_bind].
    apply IH; try exact Hfail;
      unfold shrink, settle; destruct (ts_x_error_loc st); cbn;
      try exact Hne.
    all: try (apply Qle_shift_div_l; lra).
    all: assert (Hhalf : ts_step_size st / 2 == ts_step_size st * (1 # 2))
           by field; lra.
Qed.

Lemma left_body_advances st st' :
  0 <= step_init ->
  loop_body' Leftward st = Ok st' ->
  step_init * (1 # 64) <= ts_step_size st ->
  ts_x_loc st' <= ts_x_loc st - step_init * (1 # 64).
Proof.
  intros Hinit Hbody Hfloor.
  pose proof (left_body_floor _ _ Hinit Hbody Hfloor) as Hfloor'.
  apply loop_body_cases in Hbody as [[_ Hx]|(Hs & Hx & _ & Habove)];
    rewrite Hx.
  - lra.
  - specialize (Habove eq_refl). unfold above_threshold in Habove.
    apply Qle_bool_iff in Habove. rewrite Hs in Hfloor'. lra.
Qed.

(** X9: the leftward sweep always ends.  With a non-negative initial step
    size every iteration moves [x_loc] down by [step_init / 64] or more, so
    [n] iterations are enough as soon as
    [x_loc - n * step_init / 64 < x_end_left]: the loop has then returned or
    raised. *)
Theorem left_sweep_terminates n : forall st,
  0 <= step_init ->
  step_init * (1 # 64) <= ts_step_size st ->
  ts_x_loc st - inject_Z (Z.of_nat n) * (step_init * (1 # 64)) < x_end_left ->
  exists r,
    left_loop newton findroot y_loc step_init x_end_left args wordy solver
      n st = Some r.
Proof.
  induction n as [|n IH]; intros st Hinit Hfloor Hx.
  - assert (Hout : Qle_bool x_end_left (ts_x_loc st) = false).
    { destruct (Qle_bool x_end_left (ts_x_loc st)) eqn:E; [|reflexivity].
      apply Qle_bool_iff in E.
      change (inject_Z (Z.of_nat 0)) with 0 in Hx. lra. }
    cbn. rewrite Hout. eauto.
  - rewrite left_loop_unfold.
    destruct (Qle_bool x_end_left (ts_x_loc st)); [|eauto].
    destruct (loop_body' Leftward st) as [st'|e] eqn:Hbody; [|eauto].
    apply IH.
    + exact Hinit.
    + exact (left_body_floor _ _ Hinit Hbody Hfloor).
    + pose proof (left_body_advances _ _ Hinit Hbody Hfloor) as Hadv.
      rewrite Nat2Z.inj_succ, <- Z.add_1_r, inject_Z_plus in Hx.
      change (inject_Z 1) with 1 in Hx. lra.
Qed.

(** X10: [line_trace_sp] never returns an empty trace, and never a shorter
    one than the leftward sweep had built: both sweeps only add rows. *)
Theorem line_trace_sp_returns_rows fuel x_loc points :
  line_trace_sp newton findroot y_loc step_init x_end_left x_end_right
    args wordy solver fuel x_loc = Some (Ok points) ->
  exists st1,
    left_loop newton findroot y_loc step_init x_end_left args wordy solver
      fuel (mkTrace x_loc step_init None zero_buffer) = Some (Ok st1)
    /\ (1 <= length (rows_of (ts_points st1)) <= length (rows_of points))%nat.
Proof.
  unfold line_trace_sp.
  destruct (left_loop' fuel _) as [[st1|e1]|] eqn:Hleft; try discriminate.
  destruct (turn_around st1) as [st2|e2] eqn:Hturn; [|discriminate].
  destruct (right_loop _ _ _ _ _ _ _ _ fuel st2) as [[st3|e3]|] eqn:Hright;
    try discriminate.
  intros [= <-]. exists st1. split; [reflexivity|].
  pose proof (left_loop_length _ _ _ _ _ _ _ _ _ _ _ Hleft) as Hl.
  cbn in Hl.
  pose proof (right_loop_invariant
                (fun st => (length (rows_of (ts_points st2))
                            <= length (rows_of (ts_points st)))%nat)
                (fun s1 s2 Hbody Hs1 =>
                   Nat.le_trans _ _ _ Hs1 (loop_body_length _ _ _ _ _ _ _ _ _ _ Hbody))
                fuel st2 st3 Hright (Nat.le_refl _)) as Hr.
  unfold turn_around in Hturn.
  destruct (py_index _ _) as [p|]; cbn in Hturn; [|discriminate].
  injection Hturn as <-. cbn in Hr. rewrite rows_of_flip, length_rev in Hr.
  split; [exact Hl|]. rewrite rows_of_round_x, length_map. exact Hr.
Qed.

End SweepInvariants.

(** ** The escalation on the untouched buffer *)

Section FreshBuffer.

Variable findroot : list Q -> scalar -> string -> Q -> bool -> option C.
Variable y_loc : scalar.
Variable args : list (option Q).
Variable wordy : bool.
Variable solver : string.

(** X22: the escalation cannot seed the trace.  While the trace is still
    the float64 buffer of zeros, [next_root_mp] solves from [y_loc] and
    writes its root, a Python complex, into the buffer itself: the call
    raises [ValueError] when the solver does not converge and [TypeError]
    when it does, and either leaves [line_trace_sp]. *)
Theorem escalation_on_fresh_buffer_raises st :
  ts_points st = zero_buffer ->
  escalate findroot y_loc args wordy solver st
  = match findroot (bind_args args (ts_x_loc st)) y_loc solver
            (tol_of_wordy wordy) true with
    | Some _ => Raise TypeError
    | None => Raise ValueError
    end.
Proof.
  intros Hp. unfold escalate. rewrite Hp.
  rewrite next_root_mp_reseeds by (cbn; lia || reflexivity).
  destruct (findroot _ _ _ _ _); reflexivity.
Qed.

End FreshBuffer.

(** ** What [grid_solver] stores *)

Lemma snap_re root : re (snap root) = re root.
Proof. unfold snap. destruct (snaps root); reflexivity. Qed.

Lemma snap_im root :
  im (snap root) == 0 \/ 1 # 100000 <= im (snap root).
Proof.
  unfold snap. destruct (snaps root) eqn:Hs; [left; reflexivity|].
  destruct (Qeq_bool (im root) 0) eqn:Hz.
  - left. apply Qeq_bool_iff, Hz.
  - right. unfold snaps in Hs. rewrite Hz in Hs. cbn in Hs.
    destruct (Qlt_bool (im root) (1 # 100000)) eqn:Hlt; [discriminate|].
    apply Qnot_lt_le. intros H. apply Qlt_bool_iff in H. congruence.
Qed.

Section GridSolverExtras.

Variable func : gmap string Q -> Q -> C.
Variable newton : gmap string Q -> Q -> option C.
Variable brentq : gmap string Q -> Q -> Q -> option Q.
Variable brenth : gmap string Q -> Q -> Q -> option Q.
Variable y_range : list Q.
Variable axes : axes_dict.

(** A property of the list of stored points that survives every accepted
    root holds for what a sweep returns.  [allowed] is what is known of the
    column, [good] what is known of the roots the solvers hand back. *)
Variable I : list row -> Prop.
Variable allowed : Q -> Prop.
Variable good : C -> Prop.
Hypothesis I_accepted : forall x root points,
  allowed x -> good root -> I points ->
  accepted y_range points root = true ->
  I (points ++ [(x, snap root)]).
Hypothesis good_newton : forall kw y root, newton kw y = Some root -> good root.
Hypothesis good_real : forall q, good (of_real q).

Lemma keep_invariant x root points :
  allowed x -> good root -> I points -> I (keep y_range x root points).
Proof.
  intros Hx Hroot Hall. unfold keep.
  destruct (accepted y_range points root) eqn:Hacc; [|exact Hall].
  apply I_accepted; assumption.
Qed.

Lemma newton_column_invariant kwargs x ys : forall points,
  allowed x -> I points ->
  I (newton_column newton y_range kwargs x ys points).
Proof.
  induction ys as [|y ys IH]; intros points Hx Hall; [exact Hall|].
  cbn [newton_column]. apply IH; [exact Hx|].
  destruct (newton kwargs y) as [root|] eqn:Hroot; [|exact Hall].
  apply keep_invariant; try assumption. exact (good_newton _ _ _ Hroot).
Qed.

Lemma newton_sweep_invariant xs : forall args points,
  Forall allowed xs -> I points ->
  I (snd (newton_sweep newton y_range axes xs args points)).
Proof.
  induction xs as [|x xs IH]; intros args points Hxs Hall; [exact Hall|].
  inversion Hxs as [|? ? Hx Hxs']; subst.
  cbn [newton_sweep]. apply IH; [exact Hxs'|].
  apply newton_column_invariant; assumption.
Qed.

Lemma brent_roots_invariant brent kwargs x yl locs : forall points points',
  allowed x -> I points ->
  brent_roots y_range brent kwargs x yl locs points = Ok points' ->
  I points'.
Proof.
  induction locs as [|i locs IH]; intros points points' Hx Hall.
  - cbn. intros [= <-]. exact Hall.
  - cbn [brent_roots].
    destruct (py_index yl (Z.of_nat i - 2)) as [a|]; cbn; [|discriminate].
    destruct (py_index yl (Z.of_nat i + 2)) as [b|]; cbn; [|discriminate].
    apply IH; [exact Hx|].
    destruct (brent kwargs a b); [|exact Hall].
    apply keep_invariant; try assumption. apply good_real.
Qed.

Lemma brent_column_invariant brent kwargs x step_size ys :
  forall points points',
  allowed x -> I points ->
  brent_column func y_range brent kwargs x step_size ys points = Ok points' ->
  I points'.
Proof.
  induction ys as [|y ys IH]; intros points points' Hx Hall.
  - cbn. intros [= <-]. exact Hall.
  - cbn [brent_column].
    destruct (brent_roots _ _ _ _ _ _ _) as [pts|] eqn:Hroots; cbn;
      [|discriminate].
    apply IH; [exact Hx|].
    eapply brent_roots_invariant; eassumption.
Qed.

Lemma brent_sweep_invariant brent step_size xs :
  forall args points args' points',
  Forall allowed xs -> I points ->
  brent_sweep func y_range axes brent step_size xs args points
    = (args', Ok points') ->
  I points'.
Proof.
  induction xs as [|x xs IH]; intros args points args' points' Hxs Hall.
  - cbn. intros [= _ <-]. exact Hall.
  - inversion Hxs as [|? ? Hx Hxs']; subst.
    cbn [brent_sweep].
    destruct (brent_column _ _ _ _ _ _ _ _) as [pts|] eqn:Hcol;
      [|discriminate].
    apply IH; [exact Hxs'|].
    eapply brent_column_invariant; eassumption.
Qed.

Lemma grid_solver_invariant x_range args method args' points :
  Forall allowed x_range ->
  I [] ->
  grid_solver func newton brentq brenth y_range axes x_range args method
    = (args', Ok points) ->
  I points.
Proof.
  intros Hxs Hnil. unfold grid_solver.
  destruct (String.eqb method "sp.newton").
  - pose proof (newton_sweep_invariant x_range args [] Hxs Hnil) as Hinv.
    destruct (newton_sweep _ _ _ _ _ _) as [a p]. cbn in Hinv.
    intros [= _ Hrep]. destruct p; [discriminate|].
    injection Hrep as <-. exact Hinv.
  - destruct (String.eqb method "sp.brentq").
    + destruct (half_step y_range) as [step_size|]; [|discriminate].
      destruct (brent_sweep _ _ _ _ _ _ _ _) as [a [p|]] eqn:Hsweep;
        [|discriminate].
      cbn. intros [= _ Hrep]. destruct p; [discriminate|].
      injection Hrep as <-.
      eapply brent_sweep_invariant; [exact Hxs | exact Hnil | exact Hsweep].
    + destruct (String.eqb method "sp.brenth"); [|discriminate].
      destruct (half_step y_range) as [step_size|]; [|discriminate].
      destruct (brent_sweep _ _ _ _ _ _ _ _) as [a [p|]] eqn:Hsweep;
        [|discriminate].
      cbn. intros [= _ Hrep]. destruct p; [discriminate|].
      injection Hrep as <-.
      eapply brent_sweep_invariant; [exact Hxs | exact Hnil | exact Hsweep].
Qed.

End GridSolverExtras.

Lemma close_to_any_false root points :
  close_to_any root points = false ->
  Forall (fun p => np_isclose root (of_real (fst p)) = false
                   /\ np_isclose root (snd p) = false) points.
Proof.
  unfold close_to_any. induction points as [|p points IH]; cbn.
  - constructor.
  - intros H. apply orb_false_iff in H as [Hp Hrest].
    apply orb_false_iff in Hp. constructor; [exact Hp | exact (IH Hrest)].
Qed.

Lemma ForallOrdPairs_snoc {A : Type} (R : A -> A -> Prop) l a :
  ForallOrdPairs R l -> Forall (fun p => R p a) l ->
  ForallOrdPairs R (l ++ [a]).
Proof.
  induction 1 as [|p l Hp Hl IH]; intros Ha; cbn.
  - constructor; constructor.
  - inversion Ha as [|? ? Hpa Hla]; subst.
    constructor; [|exact (IH Hla)].
    apply Forall_app. split; [exact Hp|]. constructor; [exact Hpa|constructor].
Qed.

Section GridSolverStored.

Variable func : gmap string Q -> Q -> C.
Variable newton : gmap string Q -> Q -> option C.
Variable brentq : gmap string Q -> Q -> Q -> option Q.
Variable brenth : gmap string Q -> Q -> Q -> option Q.
Variable y_range : list Q.
Variable axes : axes_dict.

(** X11: every point [grid_solver] returns sits on a column of [x_range],
    and the real part of its root lies between the first and the last value
    of [y_range], whatever the method. *)
Theorem grid_solver_points_in_box x_range args method args' points :
  grid_solver func newton brentq brenth y_range axes x_range args method
    = (args', Ok points) ->
  Forall (fun p => In (fst p) x_range
                   /\ hd 0 y_range <= re (snd p)
                   /\ re (snd p) <= List.last y_range 0) points.
Proof.
  intros Hrun.
  refine (grid_solver_invariant func newton brentq brenth y_range axes
            (Forall _) (fun x => In x x_range) (fun _ => True) _ _ _
            x_range args method args' points _ _ Hrun); try constructor.
  - intros x root pts Hx _ Hpts Hacc. apply Forall_app.
    split; [exact Hpts|]. constructor; [|constructor].
    cbn [fst snd]. rewrite snap_re.
    unfold accepted, within in Hacc.
    apply andb_true_iff in Hacc as [Hin _].
    apply andb_true_iff in Hin as [Hlo Hhi].
    apply Clt_re in Hlo, Hhi. cbn in Hlo, Hhi. auto.
  - apply List.Forall_forall. auto.
Qed.

(** X12: no returned root has a negative imaginary part, nor a positive one
    below [1e-5]: the imaginary part of every stored root is zero or at
    least [1e-5]. *)
Theorem grid_solver_imaginary_parts x_range args method args' points :
  grid_solver func newton brentq brenth y_range axes x_range args method
    = (args', Ok points) ->
  Forall (fun p => im (snd p) == 0 \/ 1 # 100000 <= im (snd p)) points.
Proof.
  intros Hrun.
  refine (grid_solver_invariant func newton brentq brenth y_range axes
            (Forall _) (fun _ => True) (fun _ => True) _ _ _
            x_range args method args' points _ _ Hrun); try constructor.
  - intros x root pts _ _ Hpts _. apply Forall_app.
    split; [exact Hpts|]. constructor; [|constructor]. apply snap_im.
  - apply List.Forall_forall. auto.
Qed.

(** X20: what the duplicate test guarantees.  When the Newton solver hands
    back real roots only (the bracketing solvers always do), every returned
    root was, when it was accepted, close to neither coordinate of any point
    stored before it: for [p] before [q] in the result, [q]'s root is not
    within tolerance of [p]'s root nor of [p]'s x. *)
Theorem grid_solver_real_roots_are_apart x_range args method args' points :
  (forall kw y root, newton kw y = Some root -> im root == 0) ->
  grid_solver func newton brentq brenth y_range axes x_range args method
    = (args', Ok points) ->
  ForallOrdPairs
    (fun p q => np_isclose (snd q) (of_real (fst p)) = false
                /\ np_isclose (snd q) (snd p) = false) points.
Proof.
  intros Hreal Hrun.
  refine (grid_solver_invariant func newton brentq brenth y_range axes
            (ForallOrdPairs _) (fun _ => True) (fun root => im root == 0)
            _ Hreal _ x_range args method args' points _ _ Hrun).
  - intros x root pts _ Hroot Hpts Hacc.
    assert (Hsnap : snap root = root).
    { unfold snap, snaps. apply Qeq_bool_iff in Hroot. rewrite Hroot.
      reflexivity. }
    rewrite Hsnap. apply ForallOrdPairs_snoc; [exact Hpts|].
    unfold accepted in Hacc. apply andb_true_iff in Hacc as [_ Hfar].
    apply negb_true_iff in Hfar. exact (close_to_any_false _ _ Hfar).
  - intros q. reflexivity.
  - apply List.Forall_forall. auto.
  - constructor.
Qed.

End GridSolverStored.

Lemma Cnorm2_nonneg z : 0 <= Cnorm2 z.
Proof. unfold Cnorm2. nra. Qed.

Lemma np_isclose_refl a : np_isclose a a = true.
Proof.
  unfold np_isclose. apply orb_true_iff. left. apply Qle_bool_iff.
  pose proof (Cnorm2_nonneg a) as Ha.
  assert (H0 : Cnorm2 (Csub a a) == 0).
  { unfold Cnorm2, Csub. cbn. ring. }
  rewrite H0. nra.
Qed.

Section GridSolverEdges.

Variable func : gmap string Q -> Q -> C.
Variable newton : gmap string Q -> Q -> option C.
Variable brentq : gmap string Q -> Q -> Q -> option Q.
Variable brenth : gmap string Q -> Q -> Q -> option Q.
Variable y_range : list Q.
Variable axes : axes_dict.

(** X13: a root is compared with both columns of what is stored.  A real
    root equal to the x-coordinate of any stored point is discarded just as
    a root equal to a stored root is, at whatever column it is found. *)
Theorem keep_discards_stored_coordinates x_loc x' y' points :
  In (x', y') points ->
  keep y_range x_loc (of_real x') points = points
  /\ keep y_range x_loc y' points = points.
Proof.
  intros Hin.
  assert (Hclose : forall root,
            np_isclose root (of_real x') || np_isclose root y' = true ->
            keep y_range x_loc root points = points).
  { intros root Hroot. unfold keep, accepted.
    assert (Hany : close_to_any root points = true).
    { unfold close_to_any. apply existsb_exists.
      exists (x', y'). split; [exact Hin | exact Hroot]. }
    rewrite Hany, andb_false_r. reflexivity. }
  split; apply Hclose.
  - rewrite np_isclose_refl. reflexivity.
  - rewrite np_isclose_refl. apply orb_true_r.
Qed.

Lemma newton_column_no_roots kwargs x ys points :
  (forall kw y, newton kw y = None) ->
  newton_column newton y_range kwargs x ys points = points.
Proof.
  intros Hfail. induction ys as [|y ys IH]; [reflexivity|].
  cbn [newton_column]. rewrite Hfail. exact IH.
Qed.

Lemma newton_sweep_no_roots xs : forall args points,
  (forall kw y, newton kw y = None) ->
  snd (newton_sweep newton y_range axes xs args points) = points.
Proof.
  induction xs as [|x xs IH]; intros args points Hfail; [reflexivity|].
  cbn [newton_sweep]. rewrite newton_column_no_roots by exact Hfail.
  apply IH, Hfail.
Qed.

(** X14: when the Newton solver converges nowhere on the grid,
    [grid_solver] does not return an empty array: its report indexes the
    second column of the result and raises [IndexError].  The caller's
    dictionary has been written all the same. *)
Theorem grid_solver_without_roots_raises x_range args :
  (forall kw y, newton kw y = None) ->
  grid_solver func newton brentq brenth y_range axes x_range args "sp.newton"
  = (swept axes x_range args, Raise IndexError).
Proof.
  intros Hfail. unfold grid_solver. cbn [String.eqb Ascii.eqb Bool.eqb].
  pose proof (newton_sweep_args newton y_range axes x_range args []) as Hargs.
  pose proof (newton_sweep_no_roots x_range args [] Hfail) as Hpts.
  destruct (newton_sweep _ _ _ _ _ _) as [a p]. cbn in Hargs, Hpts.
  subst. reflexivity.
Qed.

(** X15: what leaves the dictionary untouched.  A method name other than
    the three supported ones, and a bracketing method on an empty
    [y_range], raise [IndexError] with [args] as the caller passed it. *)
Theorem grid_solver_leaves_args_untouched x_range args method :
  (String.eqb method "sp.newton" = false
   /\ String.eqb method "sp.brentq" = false
   /\ String.eqb method "sp.brenth" = false)
  \/ (y_range = []
      /\ (method = "sp.brentq"%string \/ method = "sp.brenth"%string)) ->
  grid_solver func newton brentq brenth y_range axes x_range args method
  = (args, Raise IndexError).
Proof.
  intros [(H1 & H2 & H3)|[Hy [-> | ->]]]; unfold grid_solver.
  - rewrite H1, H2, H3. reflexivity.
  - cbn [String.eqb Ascii.eqb Bool.eqb]. subst y_range. reflexivity.
  - cbn [String.eqb Ascii.eqb Bool.eqb]. subst y_range. reflexivity.
Qed.

End GridSolverEdges.

(** ** The bracketing branches at the end of the local grid *)

Lemma py_index_raises_index_error {A : Type} (l : list A) i e :
  py_index l i = Raise e -> e = IndexError.
Proof.
  unfold py_index.
  destruct (_ && _); [destruct (l !! _)|]; congruence.
Qed.

Lemma py_index_beyond {A : Type} (l : list A) (i : nat) :
  (length l <= i)%nat -> py_index l (Z.of_nat i) = Raise IndexError.
Proof.
  intros Hlen. unfold py_index.
  assert (H0 : (Z.of_nat i <? 0)%Z = false) by (apply Z.ltb_ge; lia).
  rewrite H0.
  assert (H1 : (Z.of_nat i <? Z.of_nat (length l))%Z = false)
    by (apply Z.ltb_ge; lia).
  rewrite H1, andb_false_r. reflexivity.
Qed.

Lemma root_locs_step start f g rest :
  root_locs start (f :: g :: rest)
  = (if sign_change f g then [start] else []) ++ root_locs (S start) (g :: rest).
Proof. reflexivity. Qed.

Lemma root_locs_last start : forall F f0 f1,
  sign_change f0 f1 = true ->
  In (start + length F)%nat (root_locs start (F ++ [f0; f1])).
Proof.
  intros F. revert start.
  induction F as [|f F IH]; intros start f0 f1 Hsign.
  - cbn. rewrite Hsign. left. lia.
  - change ((f :: F) ++ [f0; f1]) with (f :: (F ++ [f0; f1])).
    destruct (F ++ [f0; f1]) as [|g rest] eqn:Hrest.
    + destruct F; discriminate.
    + rewrite root_locs_step. apply in_or_app. right.
      rewrite <- Hrest.
      replace (start + length (f :: F))%nat with (S start + length F)%nat
        by (cbn; lia).
      apply IH, Hsign.
Qed.

Section BracketingEdges.

Variable func : gmap string Q -> Q -> C.
Variable y_range : list Q.
Variable axes : axes_dict.

Lemma brent_roots_out_of_range brent kwargs x yl locs : forall points,
  (exists i, In i locs /\ (length yl <= i + 2)%nat) ->
  brent_roots y_range brent kwargs x yl locs points = Raise IndexError.
Proof.
  induction locs as [|i locs IH]; intros points (j & Hj & Hlen).
  - destruct Hj.
  - cbn [brent_roots].
    destruct (py_index yl (Z.of_nat i - 2)) as [a|e] eqn:Ha; cbn.
    2: { apply py_index_raises_index_error in Ha. congruence. }
    destruct (py_index yl (Z.of_nat i + 2)) as [b|e] eqn:Hb; cbn.
    2: { apply py_index_raises_index_error in Hb. congruence. }
    destruct Hj as [<-|Hj].
    + replace (Z.of_nat i + 2)%Z with (Z.of_nat (i + 2)) in Hb by lia.
      rewrite py_index_beyond in Hb by exact Hlen. discriminate.
    + apply IH. eauto.
Qed.

(** X16: a sign change between the last two samples of the first local grid
    aborts a bracketing method.  The end of the bracket is read two samples
    past the flagged index, which is beyond the local grid; the [IndexError]
    is not among the exceptions the loop catches, so [grid_solver] raises
    it, with the dictionary holding the x value at which it stopped. *)
Theorem bracketing_aborts_at_last_interval brentq brenth newton
    x xs y ys step_size args method :
  y_range = y :: ys ->
  method = "sp.brentq"%string \/ method = "sp.brenth"%string ->
  half_step y_range = Ok step_size ->
  (let sample k :=
     (y - step_size)
     + inject_Z (Z.of_nat k)
       * ((y + step_size - (y - step_size))
          / inject_Z (Z.of_nat (local_grid_size - 1))) in
   sign_change
     (func (<[x_axis axes := x]> args) (sample (local_grid_size - 2)%nat))
     (func (<[x_axis axes := x]> args) (sample (local_grid_size - 1)%nat))
   = true) ->
  grid_solver func newton brentq brenth y_range axes (x :: xs) args method
  = (<[x_axis axes := x]> args, Raise IndexError).
Proof.
  intros Hy Hmethod Hstep Hsign. cbv zeta in Hsign.
  assert (Hsize : local_grid_size = S (S (local_grid_size - 2)))
    by reflexivity.
  assert (Hcol : forall brent,
            brent_column func y_range brent (<[x_axis axes := x]> args) x
              step_size y_range [] = Raise IndexError).
  { intros brent. rewrite Hy at 2. cbn [brent_column].
    rewrite brent_roots_out_of_range; [reflexivity|].
    exists (local_grid_size - 2)%nat. split.
    - unfold linspace. rewrite Hsize at 2.
      rewrite !seq_S, !map_app, <- app_assoc. cbn [map app Nat.add].
      match goal with
      | |- In _ (root_locs 0 (?F ++ [_; _])) =>
          replace (local_grid_size - 2)%nat with (0 + length F)%nat at 1
      end.
      + apply root_locs_last.
        replace (S (local_grid_size - 2)) with (local_grid_size - 1)%nat
          in * by reflexivity.
        exact Hsign.
      + rewrite !length_map, length_seq. reflexivity.
    - unfold linspace. rewrite length_map, length_seq. rewrite Hsize at 1. lia. }
  unfold grid_solver.
  destruct Hmethod as [-> | ->]; cbn [String.eqb Ascii.eqb Bool.eqb];
    rewrite Hstep; cbn [brent_sweep]; rewrite Hcol; reflexivity.
Qed.

End BracketingEdges.

(** ** What [find_sign_change] reports *)

Lemma flagged_row_spec p : forall down up xs ys,
  In p (flagged_row down up xs ys)
  <-> exists j d u,
        down !! j = Some d /\ up !! j = Some u
        /\ xs !! j = Some (fst p) /\ ys !! j = Some (snd p)
        /\ Qlt_bool (re d * re u) 0 && Clt d (of_real 10) = true.
Proof.
  induction down as [|d down IH]; intros up xs ys.
  - cbn. split; [contradiction|]. intros (j & d & u & H & _). discriminate.
  - destruct up as [|u up]; [|destruct xs as [|x xs]; [|destruct ys as [|y ys]]];
      cbn [flagged_row].
    + split; [contradiction|]. intros (j & d0 & u0 & _ & H & _). discriminate.
    + split; [contradiction|]. intros (j & d0 & u0 & _ & _ & H & _). discriminate.
    + split; [contradiction|].
      intros (j & d0 & u0 & _ & _ & _ & H & _). discriminate.
    + rewrite in_app_iff, IH. split.
      * intros [Hhead|(j & d0 & u0 & H)].
        -- destruct (Qlt_bool (re d * re u) 0 && Clt d (of_real 10)) eqn:Hc;
             [|contradiction].
           destruct Hhead as [<-|[]].
           exists 0%nat, d, u. repeat split; assumption.
        -- exists (S j), d0, u0. exact H.
      * intros ([|j] & d0 & u0 & Hd & Hu & Hx & Hy & Hc).
        -- left. cbn in Hd, Hu, Hx, Hy.
           injection Hd as <-. injection Hu as <-.
           injection Hx as Hx. injection Hy as Hy.
           rewrite Hc. left. destruct p. cbn in *. congruence.
        -- right. exists j, d0, u0. repeat split; assumption.
Qed.

Lemma flagged_spec p : forall func_grid x_grid y_grid,
  In p (flagged func_grid x_grid y_grid)
  <-> exists i down up xs ys,
        func_grid !! i = Some down /\ func_grid !! S i = Some up
        /\ x_grid !! S i = Some xs /\ y_grid !! S i = Some ys
        /\ In p (flagged_row down up xs ys).
Proof.
  induction func_grid as [|down func_grid IH]; intros x_grid y_grid.
  - cbn. split; [contradiction|]. intros (i & ? & ? & ? & ? & H & _). discriminate.
  - destruct func_grid as [|up rest].
    { cbn. split; [contradiction|].
      intros ([|i] & ? & ? & ? & ? & _ & H & _); discriminate. }
    destruct x_grid as [|x0 [|xs x_rest]].
    { cbn. split; [contradiction|].
      intros (i & ? & ? & ? & ? & _ & _ & H & _). discriminate. }
    { cbn. split; [contradiction|].
      intros ([|i] & ? & ? & ? & ? & _ & _ & H & _); discriminate. }
    destruct y_grid as [|y0 [|ys y_rest]].
    { cbn. split; [contradiction|].
      intros (i & ? & ? & ? & ? & _ & _ & _ & H & _). discriminate. }
    { cbn. split; [contradiction|].
      intros ([|i] & ? & ? & ? & ? & _ & _ & _ & H & _); discriminate. }
    change (flagged (down :: up :: rest) (x0 :: xs :: x_rest)
              (y0 :: ys :: y_rest))
      with (flagged_row down up xs ys
            ++ flagged (up :: rest) (xs :: x_rest) (ys :: y_rest)).
    rewrite in_app_iff, IH. split.
    + intros [Hrow|(i & d & u & a & b & H)].
      * exists 0%nat, down, up, xs, ys. repeat split. exact Hrow.
      * exists (S i), d, u, a, b. exact H.
    + intros ([|i] & d & u & a & b & Hd & Hu & Hx & Hy & Hin).
      * left. cbn in Hd, Hu, Hx, Hy. congruence.
      * right. exists i, d, u, a, b. repeat split; assumption.
Qed.

Lemma meshgrid_lookup x_range y_range i xs ys :
  fst (meshgrid x_range y_range) !! i = Some xs ->
  snd (meshgrid x_range y_range) !! i = Some ys ->
  xs = x_range
  /\ exists y, y_range !! i = Some y /\ ys = map (fun _ => y) x_range.
Proof.
  unfold meshgrid. cbn [fst snd]. rewrite !list_lookup_fmap.
  destruct (y_range !! i) as [y|]; cbn; [|discriminate].
  intros [= <-] [= <-]. eauto.
Qed.

Section FindSignChangeExtras.

Variable func : gmap string kwval -> result (list (list C)).

(** X17: the points [find_sign_change] returns are exactly the upper ends
    of the vertical neighbour pairs at which the real part of the grid
    changes sign and the lower value is below 10: [(x_j, y_(i+1))] is
    reported when [func_grid[i][j]] and [func_grid[i+1][j]] have real parts
    of opposite sign and [func_grid[i][j] < 10]. *)
Theorem find_sign_change_reports_upper_points x_range y_range axes args
    points :
  find_sign_change func x_range y_range axes args = Ok points ->
  exists func_grid,
    func (<[x_axis axes := Grid (fst (meshgrid x_range y_range))]>
            (<[y_axis axes := Grid (snd (meshgrid x_range y_range))]>
               (Scalar <$> args))) = Ok func_grid
    /\ forall x y,
         In (x, y) points
         <-> exists i j down up d u,
               func_grid !! i = Some down /\ down !! j = Some d
               /\ func_grid !! S i = Some up /\ up !! j = Some u
               /\ x_range !! j = Some x /\ y_range !! S i = Some y
               /\ re d * re u < 0 /\ Clt d (of_real 10) = true.
Proof.
  unfold find_sign_change, partial_call, call_kwargs.
  destruct (meshgrid x_range y_range) as [x_grid y_grid] eqn:Hmesh.
  cbn [fst snd].
  destruct (decide _) as [_|]; cbn; [|discriminate].
  rewrite <- (assoc_L (∪)), (idemp_L (∪) (Scalar <$> args)).
  rewrite <- !insert_union_l, (left_id_L ∅ (∪)).
  destruct (func _) as [func_grid|] eqn:Hfunc; cbn; [|discriminate].
  destruct (same_shape func_grid x_grid); [|discriminate].
  intros [= <-]. exists func_grid. split; [reflexivity|].
  intros x y. rewrite flagged_spec. split.
  - intros (i & down & up & xs & ys & Hd & Hu & Hx & Hy & Hin).
    apply flagged_row_spec in Hin as (j & d & u & Hdj & Huj & Hxj & Hyj & Hc).
    pose proof (meshgrid_lookup x_range y_range (S i) xs ys) as Hm.
    rewrite Hmesh in Hm. destruct (Hm Hx Hy) as (-> & y' & Hy' & ->).
    cbn in Hxj, Hyj. rewrite list_lookup_fmap in Hyj.
    rewrite Hxj in Hyj. cbn in Hyj. injection Hyj as ->.
    apply andb_true_iff in Hc as [Hsign Hmag]. apply Qlt_bool_iff in Hsign.
    exists i, j, down, up, d, u. repeat split; assumption.
  - intros (i & j & down & up & d & u & Hd & Hdj & Hu & Huj & Hx & Hy & Hs & Hm).
    exists i, down, up, x_range, (map (fun _ => y) x_range).
    assert (Hgrids : x_grid = fst (meshgrid x_range y_range)
                     /\ y_grid = snd (meshgrid x_range y_range))
      by (rewrite Hmesh; split; reflexivity).
    destruct Hgrids as [-> ->]. unfold meshgrid. cbn [fst snd].
    rewrite !list_lookup_fmap, Hy. cbn.
    repeat split; try assumption.
    apply flagged_row_spec. exists j, d, u. cbn [fst snd].
    rewrite list_lookup_fmap, Hx. cbn.
    repeat split; try assumption.
    apply andb_true_iff. split; [apply Qlt_bool_iff|]; assumption.
Qed.

(** X18: with fewer than two values in [y_range] there is no neighbour pair,
    and a call that returns reports nothing. *)
Theorem find_sign_change_needs_two_rows x_range y_range axes args points :
  (length y_range < 2)%nat ->
  find_sign_change func x_range y_range axes args = Ok points ->
  points = [].
Proof.
  intros Hlen. unfold find_sign_change, partial_call, meshgrid.
  destruct (call_kwargs _ _) as [kw|]; cbn; [|discriminate].
  destruct (func _) as [func_grid|]; cbn; [|discriminate].
  destruct (same_shape func_grid _); [|discriminate].
  intros [= <-].
  destruct y_range as [|y0 [|y1 ys]]; cbn in Hlen; try lia;
    destruct func_grid as [|down [|up rest]]; reflexivity.
Qed.

End FindSignChangeExtras.

(** ** What [find_first_imag] returns *)

Section FindFirstImagExtras.

Variable newton : list Q -> Q -> option C.
Variable y_range : list Q.
Variable args : list (option Q).

Lemma first_imag_column_found arguments x ys found :
  first_imag_column newton y_range arguments x ys = Some found ->
  fst found = x
  /\ exists y, In y ys /\ newton arguments y = Some (snd found)
               /\ first_imag_test y_range (snd found) = true.
Proof.
  induction ys as [|y ys IH]; [discriminate|].
  cbn [first_imag_column].
  destruct (newton arguments y) as [root|] eqn:Hroot.
  - destruct (first_imag_test y_range root) eqn:Htest.
    + intros [= <-]. cbn. split; [reflexivity|].
      exists y. repeat split; [left; reflexivity | assumption | assumption].
    + intros H. destruct (IH H) as (Hx & y' & Hy' & Hn & Ht).
      split; [exact Hx|]. exists y'. repeat split; [right|..]; assumption.
  - intros H. destruct (IH H) as (Hx & y' & Hy' & Hn & Ht).
    split; [exact Hx|]. exists y'. repeat split; [right|..]; assumption.
Qed.

(** X19: a pair returned by [find_first_imag] is genuine.  Its x is a value
    of [x_range]; its root is what the solver converged to from some value
    of [y_range] with the parameters bound at that x; the imaginary part of
    the root exceeds [1e-5]; and its real part is at least the first and
    below the last value of [y_range]. *)
Theorem find_first_imag_sound x_range x root :
  find_first_imag newton y_range x_range args = Some (x, root) ->
  In x x_range
  /\ (exists y, In y y_range /\ newton (bind_args args x) y = Some root)
  /\ 1 # 100000 < im root
  /\ hd 0 y_range <= re root
  /\ re root < List.last y_range 0.
Proof.
  unfold find_first_imag.
  induction x_range as [|x0 xs IH]; [discriminate|].
  cbn [find_first_imag_from].
  destruct (first_imag_column _ _ _ _ _) as [found|] eqn:Hcol.
  - intros [= ->].
    apply first_imag_column_found in Hcol as (Hx & y & Hy & Hn & Ht).
    cbn in Hx, Hn, Ht. subst x0.
    split; [left; reflexivity|]. split; [eauto|].
    unfold first_imag_test, within in Ht.
    apply andb_true_iff in Ht as [Hbox Him].
    apply andb_true_iff in Hbox as [Hlo Hhi].
    apply Qlt_bool_iff in Him. split; [exact Him|].
    split; [apply Clt_re in Hlo; exact Hlo|].
    unfold Clt in Hhi. apply orb_true_iff in Hhi as [H|H].
    + apply Qlt_bool_iff in H. exact H.
    + apply andb_true_iff in H as [_ H]. apply Qlt_bool_iff in H.
      cbn in H. lra.
  - intros H. destruct (IH H) as (Hx & Hrest). split; [right; exact Hx|].
    exact Hrest.
Qed.

End FindFirstImagExtras.

(** ** Worked instances *)

Lemma next_root_appends_one_row_witness :
  exists root,
    ComplexArray
      [(1, of_real 1); (21 # 20, of_real (21 # 20));
       (11 # 10, of_real (11 # 10))]
    = vstack (FloatArray [(1, 1); (21 # 20, 21 # 20)]) (11 # 10) root
    /\ rows_of
         (ComplexArray
            [(1, of_real 1); (21 # 20, of_real (21 # 20));
             (11 # 10, of_real (11 # 10))])
       = rows_of (FloatArray [(1, 1); (21 # 20, 21 # 20)])
         ++ [(11 # 10, value root)]
    /\ 1 # 20 = Qabs (1 # 20) /\ @None Q = None /\ 11 # 10 = 11 # 10.
Proof.
  apply (next_root_appends_one_row
           (converges_to (NpComplex (of_real (11 # 10))))
           (FloatArray [(1, 1); (21 # 20, 21 # 20)])
           (11 # 10) (Real 1) (1 # 20) [11 # 10]).
  - discriminate.
  - right. reflexivity.
  - vm_compute. reflexivity.
Defined.

Lemma no_jump_test_before_third_point_witness :
  (exists a,
     next_root returns_guess 5 (Real 1) (1 # 20) [5] zero_buffer = Ok a)
  /\ next_root_mp mp_returns_guess 5 (Real 1) (1 # 20) [5] zero_buffer
       "halley" 1 = Raise TypeError
  /\ (exists a,
        next_root_mp mp_returns_guess 5 (Real 1) (1 # 20) [5]
          (ComplexArray [(0, of_real 0)]) "halley" 1 = Ok a).
Proof.
  destruct (no_jump_test_before_third_point returns_guess mp_returns_guess
              zero_buffer 5 (Real 1) (1 # 20) [5] "halley" 1)
    as (_ & Hfixed & Hfloat & _).
  - cbn. lia.
  - intros x0. exists x0. reflexivity.
  - intros x0 verbose. exists (value x0). reflexivity.
  - destruct (no_jump_test_before_third_point returns_guess mp_returns_guess
                (ComplexArray [(0, of_real 0)]) 5 (Real 1) (1 # 20) [5]
                "halley" 1)
      as (_ & _ & _ & Hcomplex).
    + cbn. lia.
    + intros x0. exists x0. reflexivity.
    + intros x0 verbose. exists (value x0). reflexivity.
    + split; [|split].
      * apply Hfixed. intros [_ [z Hz]]. discriminate.
      * apply Hfloat. split; [reflexivity|]. eexists. reflexivity.
      * apply Hcomplex. intros [_ [rows Hrows]]. discriminate.
Defined.

Lemma next_root_mp_append_within_y_limit_witness :
  exists root p1,
    ComplexArray
      [(1, of_real 1); (11 # 10, of_real (21 # 20));
       (6 # 5, of_real (11 # 10)); (2, of_real (9 # 8))]
    = ComplexArray
        (rows_of (FloatArray [(1, 1); (11 # 10, 21 # 20); (6 # 5, 11 # 10)])
         ++ [(2, root)])
    /\ py_index
         (rows_of (FloatArray [(1, 1); (11 # 10, 21 # 20); (6 # 5, 11 # 10)]))
         (-1) = Ok p1
    /\ Cnorm2 (Csub root (snd p1)) < jump_limit * jump_limit.
Proof.
  apply (next_root_mp_append_within_y_limit (mp_converges_to (of_real (9 # 8)))
           (FloatArray [(1, 1); (11 # 10, 21 # 20); (6 # 5, 11 # 10)])
           2 (Real 1) (1 # 20) [2] "halley" (1 # 1000) _ (1 # 20) None 2).
  - cbn. lia.
  - vm_compute. reflexivity.
  - reflexivity.
Defined.

Lemma step_size_stays_within_initial_witness :
  exists st',
    left_loop (converges_to (NpComplex (of_real 2))) mp_never_converges
      (Real 2) (1 # 10) (9 # 10) [None] false "halley" 5
      (mkTrace 1 (1 # 10) None zero_buffer) = Some (Ok st')
    /\ 0 < ts_step_size st' /\ ts_step_size st' <= 1 # 10.
Proof.
  eexists. split; [vm_compute; reflexivity|].
  apply (step_size_stays_within_initial (converges_to (NpComplex (of_real 2)))
           mp_never_converges (Real 2) (1 # 10) (9 # 10) 0 [None] false
           "halley" 5 (mkTrace 1 (1 # 10) None zero_buffer)).
  - reflexivity.
  - split; [reflexivity|]. cbn. unfold Qle. cbn. lia.
  - left. vm_compute. reflexivity.
Defined.

Lemma left_sweep_step_size_floor_witness :
  exists st',
    left_loop never_converges mp_returns_guess (Real 2)
      (2 # 5) (1 # 2) [None] false "halley" 3
      (mkTrace 1 (2 # 5) None zero_buffer) = Some (Ok st')
    /\ (2 # 5) * (1 # 64) <= ts_step_size st'.
Proof.
  eexists. split; [vm_compute; reflexivity|].
  apply (left_sweep_step_size_floor never_converges mp_returns_guess
           (Real 2) (2 # 5) (1 # 2) [None] false "halley" 3
           (mkTrace 1 (2 # 5) None zero_buffer)).
  - unfold Qle. cbn. lia.
  - unfold Qle. cbn. lia.
  - vm_compute. reflexivity.
Defined.

Lemma error_location_is_written_once_witness :
  exists st',
    left_loop never_converges mp_returns_guess (Real 2)
      (2 # 5) (1 # 2) [None] false "halley" 3
      (mkTrace 1 (2 # 5) (Some 7) zero_buffer) = Some (Ok st')
    /\ ts_x_error_loc st' = Some 7.
Proof.
  eexists. split; [vm_compute; reflexivity|].
  apply (error_location_is_written_once never_converges mp_returns_guess
           (Real 2) (2 # 5) (1 # 2) 0 [None] false "halley" 3
           (mkTrace 1 (2 # 5) (Some 7) zero_buffer)).
  - reflexivity.
  - left. vm_compute. reflexivity.
Defined.

Lemma failed_step_moves_witness :
  exists st',
    loop_body never_converges mp_returns_guess (Real 2) (2 # 5) [None]
      false "halley" Leftward
      (mkTrace 1 (1 # 5) None (FloatArray [(6 # 5, 2)]))
    = Ok st'
    /\ ts_x_loc st' == 1 - (3 # 2) * (1 # 5)
    /\ ts_step_size st' = (1 # 5) / 2
    /\ ts_points st' = FloatArray [(6 # 5, 2)]
    /\ ts_x_error_loc st' = Some (1 - (1 # 5)).
Proof.
  apply (failed_step_moves never_converges mp_returns_guess (Real 2)
           (2 # 5) [None] false "halley" Leftward
           (mkTrace 1 (1 # 5) None (FloatArray [(6 # 5, 2)])) RuntimeError).
  - vm_compute. reflexivity.
  - reflexivity.
  - intros _. vm_compute. reflexivity.
Defined.

Lemma right_sweep_diverges_under_failure_witness :
  right_loop never_converges mp_returns_guess (Real 2) (2 # 5) 3 [None]
    false "halley" 50 (mkTrace 1 (2 # 5) None (FloatArray [(6 # 5, 2)]))
  = None.
Proof.
  apply (right_sweep_diverges_under_failure never_converges mp_returns_guess
           (Real 2) (2 # 5) 3 [None] false "halley" 50).
  - intros a g. reflexivity.
  - discriminate.
  - unfold Qle. cbn. lia.
  - unfold Qle. cbn. lia.
Defined.

Lemma left_sweep_terminates_witness :
  exists r,
    left_loop returns_guess mp_returns_guess (Real 2) (2 # 5) (99 # 100)
      [None] false "halley" 2 (mkTrace 1 (2 # 5) None zero_buffer) = Some r.
Proof.
  apply (left_sweep_terminates returns_guess mp_returns_guess (Real 2)
           (2 # 5) (99 # 100) [None] false "halley" 2
           (mkTrace 1 (2 # 5) None zero_buffer)).
  - unfold Qle. cbn. lia.
  - unfold Qle. cbn. lia.
  - vm_compute. reflexivity.
Defined.

Lemma line_trace_sp_returns_rows_witness :
  exists points st1,
    line_trace_sp (converges_to (NpComplex (of_real 2))) mp_never_converges
      (Real 2) (1 # 20) (9 # 10) (11 # 10) [None] false "halley" 20 1
    = Some (Ok points)
    /\ left_loop (converges_to (NpComplex (of_real 2))) mp_never_converges
         (Real 2) (1 # 20) (9 # 10) [None] false "halley" 20
         (mkTrace 1 (1 # 20) None zero_buffer) = Some (Ok st1)
    /\ (1 <= length (rows_of (ts_points st1)) <= length (rows_of points))%nat.
Proof.
  eexists.
  assert (Hrun : line_trace_sp (converges_to (NpComplex (of_real 2)))
                   mp_never_converges (Real 2) (1 # 20) (9 # 10) (11 # 10)
                   [None] false "halley" 20 1 = Some (Ok _))
    by (vm_compute; reflexivity).
  destruct (line_trace_sp_returns_rows _ _ _ _ _ _ _ _ _ _ _ _ Hrun)
    as (st1 & Hleft & Hlen).
  exists st1. split; [exact Hrun|]. split; assumption.
Defined.

Lemma grid_solver_points_in_box_witness :
  Forall (fun p => In (fst p) [0; 1]
                   /\ hd 0 [0; 1] <= re (snd p)
                   /\ re (snd p) <= List.last [0; 1] 0)
         [(0, of_real (1 # 2))].
Proof.
  apply (grid_solver_points_in_box (fun _ _ => of_real 0)
           (fun _ _ => Some (of_real (1 # 2)))
           (fun _ _ _ => None) (fun _ _ _ => None)
           [0; 1] (mkAxes "x" "y") [0; 1] {["k"%string := 3]} "sp.newton"
           (<["x"%string := 1]> {["k"%string := 3]})).
  vm_compute. reflexivity.
Defined.

Lemma grid_solver_imaginary_parts_witness :
  Forall (fun p => im (snd p) == 0 \/ 1 # 100000 <= im (snd p))
         [(0, of_real (1 # 2))].
Proof.
  apply (grid_solver_imaginary_parts (fun _ _ => of_real 0)
           converges_below_axis (fun _ _ _ => None) (fun _ _ _ => None)
           [0; 1] (mkAxes "x" "y") [0] ∅ "sp.newton"
           (<["x"%string := 0]> ∅)).
  vm_compute. reflexivity.
Defined.

Lemma keep_discards_stored_coordinates_witness :
  keep [0; 2] 5 (of_real 1) [(1, of_real (3 # 2))] = [(1, of_real (3 # 2))]
  /\ keep [0; 2] 5 (of_real (3 # 2)) [(1, of_real (3 # 2))]
     = [(1, of_real (3 # 2))].
Proof.
  apply (keep_discards_stored_coordinates [0; 2] 5 1 (of_real (3 # 2))).
  left. reflexivity.
Defined.

Lemma grid_solver_without_roots_raises_witness :
  grid_solver (fun _ _ => of_real 0) (fun _ _ => None)
    (fun _ _ _ => None) (fun _ _ _ => None)
    [0; 1] (mkAxes "x" "y") [3; 4] ∅ "sp.newton"
  = (swept (mkAxes "x" "y") [3; 4] ∅, Raise IndexError).
Proof.
  apply (grid_solver_without_roots_raises (fun _ _ => of_real 0)
           (fun _ _ => None)).
  intros kw y. reflexivity.
Defined.

Lemma grid_solver_leaves_args_untouched_witness :
  grid_solver (fun _ _ => of_real 0) (fun _ _ => Some (of_real (1 # 2)))
    (fun _ _ _ => None) (fun _ _ _ => None)
    [0; 1] (mkAxes "x" "y") [3; 4] {["k"%string := 3]} "sp.secant"
  = ({["k"%string := 3]}, Raise IndexError).
Proof.
  apply (grid_solver_leaves_args_untouched (fun _ _ => of_real 0)
           (fun _ _ => Some (of_real (1 # 2)))).
  left. repeat split; reflexivity.
Defined.

Lemma bracketing_aborts_at_last_interval_witness :
  grid_solver (fun _ y => of_real (y - (9999 # 40000)))
    (fun _ _ => None) (fun _ _ _ => None) (fun _ _ _ => None)
    [0; 1] (mkAxes "x" "y") [7; 8] ∅ "sp.brentq"
  = (<["x"%string := 7]> ∅, Raise IndexError).
Proof.
  apply (bracketing_aborts_at_last_interval
           (fun _ y => of_real (y - (9999 # 40000))) [0; 1] (mkAxes "x" "y")
           (fun _ _ _ => None) (fun _ _ _ => None) (fun _ _ => None)
           7 [8] 0 [1] (1 # 4) ∅ "sp.brentq").
  - reflexivity.
  - left. reflexivity.
  - vm_compute. reflexivity.
  - vm_compute. reflexivity.
Defined.

Lemma find_sign_change_reports_upper_points_witness :
  exists func_grid,
    offset_equation
      (<["x"%string := Grid (fst (meshgrid [0; 1] [0; 2]))]>
         (<["y"%string := Grid (snd (meshgrid [0; 1] [0; 2]))]>
            (Scalar <$> {["k"%string := 1]}))) = Ok func_grid
    /\ forall x y,
         In (x, y) [(0, 2); (1, 2)]
         <-> exists i j down up d u,
               func_grid !! i = Some down /\ down !! j = Some d
               /\ func_grid !! S i = Some up /\ up !! j = Some u
               /\ [0; 1] !! j = Some x /\ [0; 2] !! S i = Some y
               /\ re d * re u < 0 /\ Clt d (of_real 10) = true.
Proof.
  apply (find_sign_change_reports_upper_points offset_equation [0; 1] [0; 2]
           (mkAxes "x" "y") {["k"%string := 1]}).
  vm_compute. reflexivity.
Defined.

Lemma find_sign_change_needs_two_rows_witness :
  exists points,
    find_sign_change offset_equation [0; 1] [0] (mkAxes "x" "y")
      {["k"%string := 1]} = Ok points
    /\ points = [].
Proof.
  eexists. split; [vm_compute; reflexivity|].
  apply (find_sign_change_needs_two_rows offset_equation [0; 1] [0]
           (mkAxes "x" "y") {["k"%string := 1]}).
  - cbn. lia.
  - vm_compute. reflexivity.
Defined.

Lemma find_first_imag_sound_witness :
  In 5 [5; 6]
  /\ (exists y, In y [0; 1; 2]
                /\ (if Qeq_bool y 1 then Some (mkC (1 # 2) (1 # 2))
                    else Some (of_real y)) = Some (mkC (1 # 2) (1 # 2)))
  /\ 1 # 100000 < im (mkC (1 # 2) (1 # 2))
  /\ hd 0 [0; 1; 2] <= re (mkC (1 # 2) (1 # 2))
  /\ re (mkC (1 # 2) (1 # 2)) < List.last [0; 1; 2] 0.
Proof.
  apply (find_first_imag_sound
           (fun _ y => if Qeq_bool y 1 then Some (mkC (1 # 2) (1 # 2))
                       else Some (of_real y))
           [0; 1; 2] [None; Some 3] [5; 6] 5 (mkC (1 # 2) (1 # 2))).
  vm_compute. reflexivity.
Defined.

Lemma grid_solver_real_roots_are_apart_witness :
  ForallOrdPairs
    (fun p q => np_isclose (snd q) (of_real (fst p)) = false
                /\ np_isclose (snd q) (snd p) = false)
    [(3, of_real (1 # 2)); (3, of_real 1)].
Proof.
  apply (grid_solver_real_roots_are_apart (fun _ _ => of_real 0)
           (fun _ y => Some (of_real (if Qeq_bool y 0 then 1 # 2 else 1)))
           (fun _ _ _ => None) (fun _ _ _ => None)
           [0; 1 # 2; 2] (mkAxes "x" "y") [3] ∅ "sp.newton"
           (<["x"%string := 3]> ∅)).
  - intros kw y root [= <-]. reflexivity.
  - vm_compute. reflexivity.
Defined.

Lemma reseed_overwrites_first_row_witness :
  let points := FloatArray [(0, 1); (1 # 20, 21 # 20)] in
  let newton := converges_to (NpComplex (mkC 1 (1 # 2))) in
  next_root newton (1 # 10) (Real 1) (1 # 20) [1 # 10] points
  = Ok (FloatArray [(1 # 10, 1); (1 # 20, 21 # 20)], 1 # 20, None, 1 # 10)
  /\ (exists root,
        newton [1 # 10] (Real 1) = Some root
        /\ FloatArray [(1 # 10, 1); (1 # 20, 21 # 20)]
           = match points with
             | FloatArray rows =>
                 FloatArray (<[0%nat := (1 # 10, re (value root))]> rows)
             | ComplexArray rows =>
                 ComplexArray (<[0%nat := (1 # 10, value root)]> rows)
             end
        /\ forall rows z, points = FloatArray rows -> root <> PyComplex z)
  /\ next_root_mp mp_returns_guess (1 # 10) (Real 1) (1 # 20) [1 # 10] points
       "halley" 1
     = Raise TypeError.
Proof.
  intros points newton.
  assert (Hrun : next_root newton (1 # 10) (Real 1) (1 # 20) [1 # 10] points
                 = Ok (FloatArray [(1 # 10, 1); (1 # 20, 21 # 20)], 1 # 20,
                       None, 1 # 10))
    by (vm_compute; reflexivity).
  destruct (reseed_overwrites_first_row newton mp_returns_guess points
              (1 # 10) (Real 1) (1 # 20) [1 # 10] "halley" 1)
    as (Hfixed & _ & Hfloat).
  - cbn. lia.
  - reflexivity.
  - split; [exact Hrun|]. split.
    + exact (Hfixed _ _ _ _ Hrun).
    + apply (proj2 (Hfloat [(0, 1); (1 # 20, 21 # 20)] (of_real 1) eq_refl)).
      reflexivity.
Defined.

Lemma escalation_on_fresh_buffer_raises_witness :
  escalate mp_returns_guess (Real 1) [None] true "halley"
    (mkTrace 1 (1 # 160) (Some (3 # 5)) zero_buffer)
  = Raise TypeError.
Proof.
  apply (escalation_on_fresh_buffer_raises mp_returns_guess (Real 1) [None]
           true "halley" (mkTrace 1 (1 # 160) (Some (3 # 5)) zero_buffer)).
  reflexivity.
Defined.
